(** * deduper: duplicate-file scanner and purge

    A shallow embedding of [deduper/scanner.py] (class [DuplicateScanner]),
    of [deduper/deduper/core.py] (search, listing and the alternate deletion
    mode), of [validate_paths] of [deduper/cli.py] and of [safe_filename] of
    [deduper/utils.py].

    The Python code talks to the operating system through [pathlib] and
    [open]; here the filesystem is an explicit finite map from paths to
    inodes, every system call is a function of that map, and the calls
    that mutate it ([unlink]) return the new map.  A call that raises
    [OSError] in Python returns [None]; functions that can let an
    exception escape return a [result].  The filesystem does not change
    under a scan, and a read of a file that was opened does not fail.
    Logging is left out: it does not bear on what the functions return.
    What [purge_duplicates] and [delete_duplicates] print is kept, one
    record per line about a file. *)

From Stdlib Require Import ZArith List String Ascii.
From Stdlib.Strings Require Import Byte.
From stdpp Require Import gmap strings list fin_maps.
From Equations.Prop Require Import Equations Logic.

(** ** Exceptions *)

Inductive exn :=
| OSError          (* includes its subclass PermissionError *)
| RecursionError
| ValueError (msg : string).

Inductive result (A : Type) :=
| Ok (a : A)
| Raise (e : exn).
Arguments Ok {A} a.
Arguments Raise {A} e.

Definition rbind {A B} (m : result A) (k : A → result B) : result B :=
  match m with
  | Ok a => k a
  | Raise e => Raise e
  end.

(** A system call that fails raises [OSError]. *)
Definition syscall {A} (o : option A) : result A :=
  match o with
  | Some a => Ok a
  | None => Raise OSError
  end.

Notation "x ←ᵣ m ; k" := (rbind m (fun x => k))
  (at level 100, m at next level, right associativity, only parsing).

(** ** Paths and the filesystem *)

(** A [pathlib.Path] is its sequence of components; [Path.name] is the
    final one. *)
Abbreviation Path := (list string).

Definition name (p : Path) : string := default EmptyString (last p).

#[global] Instance byte_eq_decision : EqDecision byte := byte_eq_dec.

Inductive file_kind :=
| RegularFile (data : list byte)
| Directory (names : list string)
| Special.

(** What a path resolves to.  [kind] is the kind of the target (symbolic
    links followed, as [stat] does), [is_link] tells whether the path itself
    is a symbolic link (as [lstat] does); the three flags say whether
    [stat]/[lstat], [open]/[listdir] and [unlink] are permitted. *)
Record inode := Inode {
  kind : file_kind;
  is_link : bool;
  stat_ok : bool;
  open_ok : bool;
  unlink_ok : bool
}.

Abbreviation filesystem := (gmap Path inode).

Definition st_size (e : inode) : Z :=
  match kind e with
  | RegularFile data => Z.of_nat (length data)
  | _ => 0%Z
  end.

(** [Path.stat().st_size]: raises for a missing path and for one that may
    not be examined. *)
Definition stat (fs : filesystem) (p : Path) : option Z :=
  match fs !! p with
  | Some e => if stat_ok e then Some (st_size e) else None
  | None => None
  end.

(** [Path.is_file()], [Path.is_dir()] and [Path.is_symlink()] answer
    [False] for a missing path (ENOENT is swallowed by pathlib) and let any
    other error through. *)
Definition is_file (fs : filesystem) (p : Path) : option bool :=
  match fs !! p with
  | Some e =>
      if stat_ok e
      then Some (match kind e with RegularFile _ => true | _ => false end)
      else None
  | None => Some false
  end.

Definition is_dir (fs : filesystem) (p : Path) : option bool :=
  match fs !! p with
  | Some e =>
      if stat_ok e
      then Some (match kind e with Directory _ => true | _ => false end)
      else None
  | None => Some false
  end.

Definition is_symlink (fs : filesystem) (p : Path) : option bool :=
  match fs !! p with
  | Some e => if stat_ok e then Some (is_link e) else None
  | None => Some false
  end.

(** [Path.exists()] as the caller's path validation uses it. *)
Definition path_exists (fs : filesystem) (p : Path) : bool :=
  bool_decide (is_Some (fs !! p)).

(** [Path.iterdir()]: the children of a directory, as paths. *)
Definition iterdir (fs : filesystem) (p : Path) : option (list Path) :=
  match fs !! p with
  | Some e =>
      match kind e with
      | Directory names =>
          if open_ok e then Some (map (fun n => p ++ [n]) names) else None
      | _ => None
      end
  | None => None
  end.

(** [open(p, 'rb')]: the open file is the bytes still to be read. *)
Definition open_rb (fs : filesystem) (p : Path) : option (list byte) :=
  match fs !! p with
  | Some e =>
      match kind e with
      | RegularFile data => if open_ok e then Some data else None
      | _ => None
      end
  | None => None
  end.

(** [f.read(n)]: the chunk read and the bytes left.  A negative [n] reads
    to the end of the file, [n = 0] reads nothing. *)
Definition read (n : Z) (f : list byte) : list byte * list byte :=
  if (n <? 0)%Z then (f, []) else (take (Z.to_nat n) f, drop (Z.to_nat n) f).

Definition remove_name (n : string) (e : inode) : inode :=
  match kind e with
  | Directory names =>
      Inode (Directory (filter (fun m => m ≠ n) names))
            (is_link e) (stat_ok e) (open_ok e) (unlink_ok e)
  | _ => e
  end.

(** [Path.unlink()]: removes the entry and its name in the parent's
    listing; raises for a missing path, a directory, or when not
    permitted. *)
Definition unlink (fs : filesystem) (p : Path) : option filesystem :=
  match fs !! p with
  | Some e =>
      match kind e with
      | Directory _ => None
      | _ =>
          if unlink_ok e
          then Some (delete p (alter (remove_name (name p)) (removelast p) fs))
          else None
      end
  | None => None
  end.

(** ** The Python runtime the scanner relies on *)

(** [hashlib]: [digest alg bytes] is the hexadecimal digest of [bytes] under
    the algorithm named [alg].  [recursion_limit] is the interpreter's bound
    on nested calls: a deeper call raises [RecursionError]. *)
Class Runtime := {
  digest : string → list byte → string;
  recursion_limit : nat
}.

(** A hash object: the algorithm and everything fed to it so far. *)
Record hash_obj := HashObj { h_alg : string; h_fed : list byte }.

Definition hashlib_new (alg : string) : hash_obj := HashObj alg [].

Definition update (h : hash_obj) (chunk : list byte) : hash_obj :=
  HashObj (h_alg h) (h_fed h ++ chunk).

Definition hexdigest `{Runtime} (h : hash_obj) : string :=
  digest (h_alg h) (h_fed h).

(** ** Insertion-ordered dictionaries of lists ([defaultdict(list)]) *)

Section defaultdict.
Context {K V : Type} `{EqDecision K}.

(** [d[k].append(v)]: a new key goes last, as Python dictionaries keep
    insertion order. *)
Fixpoint dict_append (k : K) (v : V) (d : list (K * list V)) : list (K * list V) :=
  match d with
  | [] => [(k, [v])]
  | (k', vs) :: d' =>
      if decide (k = k') then (k', vs ++ [v]) :: d'
      else (k', vs) :: dict_append k v d'
  end.

(** The loop [for x in xs: try: d[key(x)].append(x) except OSError:
    continue], where [key x = None] stands for the raise. *)
Definition group_into (key : V → option K) (xs : list V)
    (d : list (K * list V)) : list (K * list V) :=
  foldl (fun d x => match key x with
                    | Some k => dict_append k x d
                    | None => d
                    end) d xs.

(** [d.get(k, [])] *)
Fixpoint dict_get (k : K) (d : list (K * list V)) : list V :=
  match d with
  | [] => []
  | (k', vs) :: d' => if decide (k = k') then vs else dict_get k d'
  end.

(** An entry with the later inputs of its key appended. *)
Definition extend_with (key : V → option K) (xs : list V) (kv : K * list V)
    : K * list V :=
  (kv.1, kv.2 ++ filter (fun x => key x = Some kv.1) xs).
End defaultdict.

(** ** The scanner ([deduper/scanner.py]) *)

Record DuplicateScanner := Scanner {
  hash_algorithm : string;
  min_size : Z;
  max_size : option Z;
  recursive : bool;
  follow_symlinks : bool;
  chunk_size : Z
}.

Definition supported_algorithms : list string :=
  ["md5"; "sha1"; "sha256"; "sha512"]%string.

(** [DuplicateScanner.__init__]: the fields are stored and the algorithm
    name is validated; no object is returned when it raises. *)
Definition __init__ (hash_algorithm : string) (min_size : Z) (max_size : option Z)
    (recursive follow_symlinks : bool) (chunk_size : Z) : result DuplicateScanner :=
  let self := Scanner hash_algorithm min_size max_size recursive follow_symlinks chunk_size in
  if decide (hash_algorithm ∉ supported_algorithms)
  then Raise (ValueError ("Unsupported hash algorithm: " +:+ hash_algorithm))
  else Ok self.

(** The condition [self.max_size and size > self.max_size]: [None] and [0]
    are both false in Python. *)
Definition over_max_size (max_size : option Z) (size : Z) : bool :=
  match max_size with
  | None => false
  | Some m => if (m =? 0)%Z then false else (size >? m)%Z
  end.

(** [_should_include_file]: any [OSError] in the body answers [False]. *)
Definition _should_include_file (self : DuplicateScanner) (fs : filesystem)
    (file_path : Path) : bool :=
  default false (
    regular ← is_file fs file_path;
    if negb regular then Some false else
    link ← is_symlink fs file_path;
    if link && negb (follow_symlinks self) then Some false else
    size ← stat fs file_path;
    if (size <? min_size self)%Z then Some false else
    if over_max_size (max_size self) size then Some false else
    Some true).

(** The body of the loop of [_scan_directory_recursive] over the entries
    still to visit, [files] being the list built so far.  An [OSError]
    raised by a call on an entry is caught by the [try] around the loop:
    the loop is abandoned and what was found is returned.  [recurse] is the
    nested call. *)
Fixpoint scan_entries (recurse : Path → result (list Path))
    (self : DuplicateScanner) (fs : filesystem)
    (items : list Path) (files : list Path) : result (list Path) :=
  match items with
  | [] => Ok files
  | item :: rest =>
      match is_file fs item with
      | None => Ok files
      | Some true =>
          scan_entries recurse self fs rest
            (if _should_include_file self fs item then files ++ [item] else files)
      | Some false =>
          match is_dir fs item with
          | None => Ok files
          | Some false => scan_entries recurse self fs rest files
          | Some true =>
              match (if follow_symlinks self then Some true
                     else negb <$> is_symlink fs item) with
              | None => Ok files
              | Some false => scan_entries recurse self fs rest files
              | Some true =>
                  match recurse item with
                  | Ok found => scan_entries recurse self fs rest (files ++ found)
                  | Raise OSError => Ok files
                  | Raise e => Raise e
                  end
              end
          end
      end
  end.

(** [_scan_directory_recursive], [depth] nested calls being still
    allowed. *)
Fixpoint scan_directory (depth : nat) (self : DuplicateScanner) (fs : filesystem)
    (directory : Path) : result (list Path) :=
  match depth with
  | O => Raise RecursionError
  | S depth' =>
      match iterdir fs directory with
      | None => Ok []
      | Some items => scan_entries (scan_directory depth' self fs) self fs items []
      end
  end.

Definition _scan_directory_recursive `{Runtime} (self : DuplicateScanner)
    (fs : filesystem) (directory : Path) : result (list Path) :=
  scan_directory recursion_limit self fs directory.

(** The comprehension [[f for f in path.iterdir() if f.is_file() and
    self._should_include_file(f)]] of the non-recursive branch; nothing
    catches an error of [is_file] here. *)
Fixpoint direct_files (self : DuplicateScanner) (fs : filesystem)
    (items : list Path) : result (list Path) :=
  match items with
  | [] => Ok []
  | f :: rest =>
      regular ←ᵣ syscall (is_file fs f);
      let keep := regular && _should_include_file self fs f in
      found ←ᵣ direct_files self fs rest;
      Ok (if keep then f :: found else found)
  end.

(** The loop of [_collect_files], [files] being the list built so far. *)
Fixpoint collect_from `{Runtime} (self : DuplicateScanner) (fs : filesystem)
    (paths : list Path) (files : list Path) : result (list Path) :=
  match paths with
  | [] => Ok files
  | path :: rest =>
      regular ←ᵣ syscall (is_file fs path);
      if regular : bool then
        collect_from self fs rest
          (if _should_include_file self fs path then files ++ [path] else files)
      else
        dir ←ᵣ syscall (is_dir fs path);
        if dir : bool then
          found ←ᵣ (if recursive self
                    then _scan_directory_recursive self fs path
                    else items ←ᵣ syscall (iterdir fs path);
                         direct_files self fs items);
          collect_from self fs rest (files ++ found)
        else collect_from self fs rest files
  end.

Definition _collect_files `{Runtime} (self : DuplicateScanner) (fs : filesystem)
    (paths : list Path) : result (list Path) :=
  collect_from self fs paths [].

(** [_group_by_size]: a file whose size cannot be read is left out. *)
Definition _group_by_size (fs : filesystem) (files : list Path) : list (Z * list Path) :=
  group_into (stat fs) files [].

(** The reading loop of [_calculate_file_hash]:
    [while True: chunk = f.read(n); if not chunk: break; h.update(chunk)]. *)
Equations? hash_chunks (n : Z) (f : list byte) (h : hash_obj) : hash_obj
  by wf (length f) lt :=
hash_chunks n f h with inspect (read n f) := {
  | exist _ ([], _) _ := h;
  | exist _ (b :: chunk, rest) _ := hash_chunks n rest (update h (b :: chunk)) }.
Proof.
  unfold read in *. destruct (n <? 0)%Z.
  - inversion e; subst. simpl. lia.
  - inversion e as [[Hc Hr]]. rewrite length_drop.
    destruct (Z.to_nat n), f; simpl in *; try discriminate; lia.
Qed.

(** [_calculate_file_hash]: [None] is the [OSError] it re-raises. *)
Definition _calculate_file_hash `{Runtime} (self : DuplicateScanner)
    (fs : filesystem) (file_path : Path) : option string :=
  f ← open_rb fs file_path;
  Some (hexdigest (hash_chunks (chunk_size self) f (hashlib_new (hash_algorithm self)))).

(** The reading loop of [_files_are_identical]. *)
Equations? compare_chunks (n : Z) (f1 f2 : list byte) : bool
  by wf (length f1) lt :=
compare_chunks n f1 f2 with inspect (read n f1) := {
  | exist _ (chunk1, rest1) _ with inspect (read n f2) := {
    | exist _ (chunk2, rest2) _ with decide (chunk1 ≠ chunk2) := {
      | left _ := false;
      | right _ with chunk1 := {
        | [] := true;
        | _ :: _ := compare_chunks n rest1 rest2 } } } }.
Proof.
  unfold read in *. destruct (n <? 0)%Z.
  - inversion e; subst. simpl. lia.
  - inversion e as [[Hc Hr]]. rewrite length_drop.
    destruct (Z.to_nat n), f1; simpl in *; try discriminate; lia.
Qed.

(** [_files_are_identical]: [None] is the [OSError] it re-raises when
    either file cannot be opened. *)
Definition _files_are_identical (self : DuplicateScanner) (fs : filesystem)
    (file1 file2 : Path) : option bool :=
  f1 ← open_rb fs file1;
  f2 ← open_rb fs file2;
  Some (compare_chunks (chunk_size self) f1 f2).

(** [_find_duplicates_hash]: group by digest, a file that cannot be hashed
    is left out, and only the groups of more than one file are returned, in
    the order their digests were first met. *)
Definition _find_duplicates_hash `{Runtime} (self : DuplicateScanner)
    (fs : filesystem) (files : list Path) : list (list Path) :=
  let hash_groups := group_into (_calculate_file_hash self fs) files [] in
  filter (fun group => 1 < length group) hash_groups.*2.

(** The inner loop of [_find_duplicates_byte_comparison] over
    [files[i+1:]]: the state is [current_group] and [processed_files]. *)
Fixpoint byte_candidates (self : DuplicateScanner) (fs : filesystem)
    (reference_file : Path) (candidates : list Path)
    (current_group : list Path) (processed_files : gset Path)
    : list Path * gset Path :=
  match candidates with
  | [] => (current_group, processed_files)
  | candidate_file :: rest =>
      if decide (candidate_file ∈ processed_files)
      then byte_candidates self fs reference_file rest current_group processed_files
      else
        match _files_are_identical self fs reference_file candidate_file with
        | Some true =>
            byte_candidates self fs reference_file rest
              (current_group ++ [candidate_file])
              ({[candidate_file]} ∪ processed_files)
        | Some false | None =>
            byte_candidates self fs reference_file rest current_group processed_files
        end
  end.

(** The outer loop, over the files from index [i] on. *)
Fixpoint byte_references (self : DuplicateScanner) (fs : filesystem)
    (files : list Path) (duplicate_groups : list (list Path))
    (processed_files : gset Path) : list (list Path) :=
  match files with
  | [] => duplicate_groups
  | reference_file :: rest =>
      if decide (reference_file ∈ processed_files)
      then byte_references self fs rest duplicate_groups processed_files
      else
        let '(current_group, processed_files') :=
          byte_candidates self fs reference_file rest
            [reference_file] ({[reference_file]} ∪ processed_files) in
        byte_references self fs rest
          (if decide (1 < length current_group)
           then duplicate_groups ++ [current_group] else duplicate_groups)
          processed_files'
  end.

Definition _find_duplicates_byte_comparison (self : DuplicateScanner)
    (fs : filesystem) (files : list Path) : list (list Path) :=
  if decide (length files < 2) then []
  else byte_references self fs files [] ∅.

(** The body of the loop of [scan] over [size_groups.items()]. *)
Definition compare_size_group `{Runtime} (self : DuplicateScanner)
    (fs : filesystem) (use_byte_comparison : bool)
    (duplicate_groups : list (list Path)) (item : Z * list Path)
    : list (list Path) :=
  let '(size, file_list) := item in
  if decide (length file_list < 2) then duplicate_groups
  else duplicate_groups ++
         (if use_byte_comparison
          then _find_duplicates_byte_comparison self fs file_list
          else _find_duplicates_hash self fs file_list).

(** [scan] from the collected files on. *)
Definition scan_files `{Runtime} (self : DuplicateScanner) (fs : filesystem)
    (files : list Path) (use_byte_comparison : bool) : list (list Path) :=
  if decide (files = []) then []
  else foldl (compare_size_group self fs use_byte_comparison) []
             (_group_by_size fs files).

Definition scan `{Runtime} (self : DuplicateScanner) (fs : filesystem)
    (paths : list Path) (use_byte_comparison : bool) : result (list (list Path)) :=
  files ←ᵣ _collect_files self fs paths;
  Ok (scan_files self fs files use_byte_comparison).

(** The scan command of [cli.main]: the scanner is constructed from the
    arguments, then asked to scan. *)
Definition scan_command `{Runtime} (hash_algorithm : string) (min_size : Z)
    (max_size : option Z) (recursive follow_symlinks : bool) (chunk_size : Z)
    (fs : filesystem) (paths : list Path) (use_byte_comparison : bool)
    : result (list (list Path)) :=
  scanner ←ᵣ __init__ hash_algorithm min_size max_size recursive follow_symlinks chunk_size;
  scan scanner fs paths use_byte_comparison.

(** What [purge_duplicates] prints: the first two go to standard output,
    the last to standard error. *)
Inductive message :=
| WouldRemove (file_path : Path)
| Removed (file_path : Path)
| ErrorRemoving (file_path : Path).

(** The state threaded through a purge. *)
Record purge_state := PurgeState {
  removed_count : Z;
  printed : list message;
  disk : filesystem
}.

(** The body of the inner loop of [purge_duplicates]. *)
Definition purge_file (dry_run : bool) (st : purge_state) (file_path : Path)
    : purge_state :=
  if dry_run
  then PurgeState (removed_count st) (printed st ++ [WouldRemove file_path]) (disk st)
  else
    match unlink (disk st) file_path with
    | Some disk' =>
        PurgeState (removed_count st + 1) (printed st ++ [Removed file_path]) disk'
    | None =>
        PurgeState (removed_count st) (printed st ++ [ErrorRemoving file_path]) (disk st)
    end.

(** [group[1:]] *)
Definition files_to_remove (group : list Path) : list Path := drop 1 group.

Definition purge_group (dry_run : bool) (st : purge_state) (group : list Path)
    : purge_state :=
  foldl (purge_file dry_run) st (files_to_remove group).

(** [purge_duplicates]: the returned count, what was printed, and the
    filesystem it leaves. *)
Definition purge_duplicates (fs : filesystem) (duplicate_groups : list (list Path))
    (dry_run : bool) : purge_state :=
  foldl (purge_group dry_run) (PurgeState 0 [] fs) duplicate_groups.

(** ** The alternate deletion mode ([deduper/deduper/core.py]) *)

Module Core.

(** Python's [min(xs, key=key)] on a non-empty sequence [x :: xs]: the
    first element of least key. *)
Definition py_min {A} (key : A → nat) (x : A) (xs : list A) : A :=
  foldl (fun best y => if decide (key y < key best) then y else best) x xs.

Inductive echo :=
| Keep (f : Path) | Delete (f : Path)
| Keeping (f : Path) | Deleted (f : Path) | ErrorDeleting (f : Path).

Definition echo_subject (e : echo) : Path :=
  match e with
  | Keep f | Delete f | Keeping f | Deleted f | ErrorDeleting f => f
  end.

(** The keeper and the files to delete of one group, for a group of at
    least two files; [None] is the [continue] for a shorter one. *)
Definition deletion_plan (group : list Path) : option (Path * list Path) :=
  match group with
  | [] | [_] => None
  | f :: rest =>
      let shortest_name_file := py_min (fun f => String.length (name f)) f rest in
      let files_to_delete := filter (fun f => f ≠ shortest_name_file) group in
      Some (shortest_name_file, files_to_delete)
  end.

Definition delete_file (st : list echo * filesystem) (file_to_delete : Path)
    : list echo * filesystem :=
  match unlink st.2 file_to_delete with
  | Some fs' => (st.1 ++ [Deleted file_to_delete], fs')
  | None => (st.1 ++ [ErrorDeleting file_to_delete], st.2)
  end.

Definition delete_group (dry_run : bool) (st : list echo * filesystem)
    (group : list Path) : list echo * filesystem :=
  match deletion_plan group with
  | None => st
  | Some (shortest_name_file, files_to_delete) =>
      if dry_run
      then (st.1 ++ Keep shortest_name_file :: map Delete files_to_delete, st.2)
      else foldl delete_file (st.1 ++ [Keeping shortest_name_file], st.2) files_to_delete
  end.

(** [delete_duplicates]: what is echoed and the filesystem it leaves (the
    function itself returns [None]). *)
Definition delete_duplicates (fs : filesystem) (duplicate_groups : list (list Path))
    (dry_run : bool) : list echo * filesystem :=
  foldl (delete_group dry_run) ([], fs) duplicate_groups.

End Core.

(** ** A test fixture *)

(** A stand-in for [hashlib] whose digest is the algorithm name followed by
    the input itself, hence free of collisions. *)
Definition toy_runtime : Runtime :=
  {| digest := fun alg data => alg +:+ ":" +:+ string_of_list_byte data;
     recursion_limit := 1000 |}.

Definition regular_file (content : string) : inode :=
  Inode (RegularFile (list_byte_of_string content)) false true true true.

Definition directory (names : list string) : inode :=
  Inode (Directory names) false true true true.

(** The directory of the end-to-end scenario: [a.txt] and [b.txt] hold
    [hello], [c.txt] holds [world]. *)
Definition hello_fs : filesystem :=
  list_to_map
    [ (["d"], directory ["a.txt"; "b.txt"; "c.txt"]);
      (["d"; "a.txt"], regular_file "hello");
      (["d"; "b.txt"], regular_file "hello");
      (["d"; "c.txt"], regular_file "world") ]%string.

Definition default_scanner : DuplicateScanner :=
  Scanner "sha256" 0 None true false 8192.

(** A tree with a subdirectory, two empty files, a symbolic link to a file,
    a file that cannot be unlinked and a file that cannot be opened. *)
Definition tree_fs : filesystem :=
  list_to_map
    [ (["r"], directory ["x.bin"; "sub"; "link.bin"; "locked.bin"; "secret.bin"]);
      (["r"; "x.bin"], regular_file "data");
      (["r"; "sub"], directory ["y.bin"; "empty1"; "empty2"]);
      (["r"; "sub"; "y.bin"], regular_file "data");
      (["r"; "sub"; "empty1"], regular_file EmptyString);
      (["r"; "sub"; "empty2"], regular_file EmptyString);
      (["r"; "link.bin"],
         Inode (RegularFile (list_byte_of_string "data")) true true true true);
      (["r"; "locked.bin"],
         Inode (RegularFile (list_byte_of_string "data")) false true true false);
      (["r"; "secret.bin"],
         Inode (RegularFile (list_byte_of_string "data")) false true false true) ]%string.

(** ** Vocabulary of the properties *)

(** [total_duplicates] of [output_results]:
    [sum(len(group) - 1 for group in duplicate_groups)]. *)
Definition total_duplicates (duplicate_groups : list (list Path)) : Z :=
  foldr Z.add 0%Z (map (fun group => (Z.of_nat (length group) - 1)%Z) duplicate_groups).

(** The file a printed line is about. *)
Definition subject (m : message) : Path :=
  match m with
  | WouldRemove p | Removed p | ErrorRemoving p => p
  end.

Definition is_removed (m : message) : bool :=
  match m with Removed _ => true | _ => false end.

Definition is_would_remove (m : message) : bool :=
  match m with WouldRemove _ => true | _ => false end.

(** [progress st0 st new]: running from [st0] to [st] printed the lines
    [new], none of them a dry-run line, counted the [Removed] ones, and the
    files that went away are exactly the subjects of those. *)
Definition progress (st0 st : purge_state) (new : list message) : Prop :=
  printed st = printed st0 ++ new
  ∧ Forall (fun m => is_would_remove m = false) new
  ∧ removed_count st = (removed_count st0 + Z.of_nat (length (filter is_removed new)))%Z
  ∧ size (disk st0) = size (disk st) + length (filter is_removed new)
  ∧ dom (disk st) = dom (disk st0) ∖ list_to_set (subject <$> filter is_removed new).

(** No path is in two groups of the list. *)
Definition disjoint_groups (groups : list (list Path)) : Prop :=
  ∀ i j group1 group2 p,
    groups !! i = Some group1 → groups !! j = Some group2 →
    p ∈ group1 → p ∈ group2 → i = j.

(** A file that passed [_should_include_file]. *)
Definition included (self : DuplicateScanner) (fs : filesystem) (p : Path) : Prop :=
  _should_include_file self fs p = true.

(** What the outer loop of the byte strategy appends: a reference and the
    later files that compare equal to it. *)
Definition byte_group_ok (self : DuplicateScanner) (fs : filesystem)
    (files group : list Path) : Prop :=
  1 < length group
  ∧ ∃ reference matched,
      group = reference :: matched
      ∧ group `sublist_of` files
      ∧ Forall (fun c => _files_are_identical self fs reference c = Some true) matched.

(** The groups one size partition contributes. *)
Definition partition_groups `{Runtime} (self : DuplicateScanner) (fs : filesystem)
    (use_byte_comparison : bool) (file_list : list Path) : list (list Path) :=
  if decide (length file_list < 2) then []
  else if use_byte_comparison
       then _find_duplicates_byte_comparison self fs file_list
       else _find_duplicates_hash self fs file_list.

(** What makes a list of paths a group of the given strategy over
    [files]: at least two files, taken in order among the files of one
    size, and matched by the strategy. *)
Definition group_ok `{Runtime} (self : DuplicateScanner) (fs : filesystem)
    (use_byte_comparison : bool) (files group : list Path) : Prop :=
  1 < length group
  ∧ (∃ size, group `sublist_of` filter (fun p => stat fs p = Some size) files)
  ∧ if use_byte_comparison
    then ∃ reference matched,
           group = reference :: matched
           ∧ Forall (fun c => _files_are_identical self fs reference c = Some true) matched
    else ∃ h, Forall (fun p => _calculate_file_hash self fs p = Some h) group.



(** No two of the files have one digest and different contents. *)
Definition collision_free `{Runtime} (self : DuplicateScanner) (fs : filesystem)
    (files : list Path) : Prop :=
  ∀ f1 f2 h, f1 ∈ files → f2 ∈ files →
    _calculate_file_hash self fs f1 = Some h →
    _calculate_file_hash self fs f2 = Some h →
    open_rb fs f1 = open_rb fs f2.

(** ** The report ([DuplicateScanner.output_results]) *)

(** What [output_results] writes, one record per line written.  Sizes are
    kept as numbers of bytes, where the text has them passed through
    [format_file_size]. *)
Inductive report_line :=
| NoDuplicatesFound
| FoundGroups (groups : nat) (total_duplicates : Z)
| SpaceSaved (total_space_wasted : Z)
| GroupHeader (i : nat) (files : nat) (file_size : Z)
| SpaceWasted (space_wasted : Z)
| Entry (j : nat) (file_path : Path) (keep : bool)
| BlankLine.

(** What escapes from [output_results]: [group[0]] of an empty group, or
    the [stat] of a first member. *)
Inductive report_error :=
| IndexError
| StatError.

(** [sum((len(group) - 1) * group[0].stat().st_size for group in
    duplicate_groups)]: the terms are computed in order. *)
Fixpoint total_space_wasted (fs : filesystem) (duplicate_groups : list (list Path))
    : report_error + Z :=
  match duplicate_groups with
  | [] => inr 0%Z
  | group :: rest =>
      match group with
      | [] => inl IndexError
      | first :: _ =>
          match stat fs first with
          | None => inl StatError
          | Some size =>
              match total_space_wasted fs rest with
              | inl e => inl e
              | inr total => inr ((Z.of_nat (length group) - 1) * size + total)%Z
              end
          end
      end
  end.

(** The lines of one group, [i] being its number. *)
Definition group_report (fs : filesystem) (i : nat) (group : list Path)
    : report_error + list report_line :=
  match group with
  | [] => inl IndexError
  | first :: _ =>
      match stat fs first with
      | None => inl StatError
      | Some file_size =>
          inr ([GroupHeader i (length group) file_size;
                SpaceWasted ((Z.of_nat (length group) - 1) * file_size)]
               ++ imap (fun j file_path => Entry (S j) file_path (bool_decide (j = 0))) group
               ++ [BlankLine])
      end
  end.

(** The loop over [enumerate(duplicate_groups, 1)], from number [i] on:
    the lines written so far and what escaped, if anything. *)
Fixpoint groups_report (fs : filesystem) (i : nat) (duplicate_groups : list (list Path))
    (written : list report_line) : list report_line * option report_error :=
  match duplicate_groups with
  | [] => (written, None)
  | group :: rest =>
      match group_report fs i group with
      | inl e => (written, Some e)
      | inr lines => groups_report fs (S i) rest (written ++ lines)
      end
  end.

Definition output_results (fs : filesystem) (duplicate_groups : list (list Path))
    : list report_line * option report_error :=
  if decide (duplicate_groups = []) then ([NoDuplicatesFound], None)
  else
    match total_space_wasted fs duplicate_groups with
    | inl e => ([], Some e)
    | inr total =>
        groups_report fs 1 duplicate_groups
          [FoundGroups (length duplicate_groups) (total_duplicates duplicate_groups);
           SpaceSaved total]
    end.

(** ** Path validation ([cli.validate_paths]) *)

(** [Path.exists()]: [False] for a missing path, and any other error of
    [stat] gets through. *)
Definition exists_ (fs : filesystem) (p : Path) : option bool :=
  match fs !! p with
  | Some e => if stat_ok e then Some true else None
  | None => Some false
  end.

(** How [validate_paths] ends: it returns the valid paths, leaves through
    [sys.exit(1)], or lets the error of [exists] escape. *)
Inductive validation :=
| Valid (valid_paths : list Path)
| SysExit (code : Z)
| Escaped (e : exn).

(** The loop of [validate_paths]: the valid paths, the paths warned about
    on standard error, and the error of [exists] that ended it, if any. *)
Fixpoint validate_loop (fs : filesystem) (paths : list Path)
    (valid_paths warned : list Path) : list Path * list Path * option exn :=
  match paths with
  | [] => (valid_paths, warned, None)
  | path :: rest =>
      match exists_ fs path with
      | None => (valid_paths, warned, Some OSError)
      | Some true => validate_loop fs rest (valid_paths ++ [path]) warned
      | Some false => validate_loop fs rest valid_paths (warned ++ [path])
      end
  end.

(** [validate_paths]: the paths warned about and how the function ends. *)
Definition validate_paths (fs : filesystem) (paths : list Path)
    : list Path * validation :=
  match validate_loop fs paths [] [] with
  | (_, warned, Some e) => (warned, Escaped e)
  | (valid_paths, warned, None) =>
      if decide (valid_paths = []) then (warned, SysExit 1)
      else (warned, Valid valid_paths)
  end.

(** ** Finding duplicates in [deduper/deduper/core.py] *)

Module CoreScan.

(** [calculate_file_hash]: the SHA-256 digest of the file read in chunks;
    [None], after a message, when the file cannot be read. *)
Definition calculate_file_hash `{Runtime} (fs : filesystem) (file_path : Path)
    (chunk_size : Z) : option string :=
  f ← open_rb fs file_path;
  Some (hexdigest (hash_chunks chunk_size f (hashlib_new "sha256"))).

(** [files_are_identical]: the sizes are compared first; any error
    answers [False], after a message. *)
Definition files_are_identical (fs : filesystem) (file1 file2 : Path)
    (chunk_size : Z) : bool :=
  default false (
    size1 ← stat fs file1;
    size2 ← stat fs file2;
    if decide (size1 ≠ size2) then Some false else
    f1 ← open_rb fs file1;
    f2 ← open_rb fs file2;
    Some (compare_chunks chunk_size f1 f2)).

(** The inner loop of [verify_duplicates_with_byte_comparison], over
    [files[i+1:]]. *)
Fixpoint verify_candidates (fs : filesystem) (file1 : Path) (candidates : list Path)
    (current_group : list Path) (processed_files : gset Path)
    : list Path * gset Path :=
  match candidates with
  | [] => (current_group, processed_files)
  | file2 :: rest =>
      if decide (file2 ∈ processed_files)
      then verify_candidates fs file1 rest current_group processed_files
      else if files_are_identical fs file1 file2 8192
      then verify_candidates fs file1 rest (current_group ++ [file2])
             ({[file2]} ∪ processed_files)
      else verify_candidates fs file1 rest current_group processed_files
  end.

(** The loop over [enumerate(files)], from index [i] on. *)
Fixpoint verify_references (fs : filesystem) (files : list Path)
    (current_groups : list (list Path)) (processed_files : gset Path)
    : list (list Path) :=
  match files with
  | [] => current_groups
  | file1 :: rest =>
      if decide (file1 ∈ processed_files)
      then verify_references fs rest current_groups processed_files
      else
        let '(current_group, processed_files') :=
          verify_candidates fs file1 rest [file1] ({[file1]} ∪ processed_files) in
        verify_references fs rest
          (if decide (1 < length current_group)
           then current_groups ++ [current_group] else current_groups)
          processed_files'
  end.

(** The body of the loop over [hash_groups.items()]. *)
Definition verify_hash_group (fs : filesystem) (verified_groups : list (list Path))
    (item : string * list Path) : list (list Path) :=
  let '(hash_val, files) := item in
  if decide (length files ≤ 1) then verified_groups
  else verified_groups ++ verify_references fs files [] ∅.

Definition verify_duplicates_with_byte_comparison (fs : filesystem)
    (hash_groups : list (string * list Path)) : list (list Path) :=
  foldl (verify_hash_group fs) [] hash_groups.

(** The first pass of [find_duplicates] over what [folder_path.rglob]
    yields for the pattern of all names.  [if file_hash:] passes over [None]
    and the empty string. *)
Fixpoint hash_pass `{Runtime} (fs : filesystem) (yielded : list Path)
    (hash_groups : list (string * list Path)) : result (list (string * list Path)) :=
  match yielded with
  | [] => Ok hash_groups
  | file_path :: rest =>
      regular ←ᵣ syscall (is_file fs file_path);
      if regular : bool then
        match calculate_file_hash fs file_path 8192 with
        | Some file_hash =>
            if decide (file_hash = EmptyString) then hash_pass fs rest hash_groups
            else hash_pass fs rest (dict_append file_hash file_path hash_groups)
        | None => hash_pass fs rest hash_groups
        end
      else hash_pass fs rest hash_groups
  end.

(** [find_duplicates], given what [folder_path.rglob] yields. *)
Definition find_duplicates `{Runtime} (fs : filesystem) (yielded : list Path)
    : result (list (list Path)) :=
  hash_groups ←ᵣ hash_pass fs yielded [];
  Ok (verify_duplicates_with_byte_comparison fs hash_groups).

(** What [print_duplicate_groups] echoes. *)
Inductive listing :=
| NoDuplicateFiles
| FoundGroupCount (groups : nat)
| TotalDuplicateFiles (total_duplicates : Z)
| GroupTitle (i : nat) (files : nat)
| Listed (file_path : Path) (would_be_kept : bool).

(** The loop over [enumerate(duplicate_groups, 1)], from number [i] on:
    what was echoed, and whether the [ValueError] of [min] on an empty
    group escaped. *)
Fixpoint print_groups (i : nat) (duplicate_groups : list (list Path))
    (echoed : list listing) : list listing * bool :=
  match duplicate_groups with
  | [] => (echoed, false)
  | group :: rest =>
      let echoed := echoed ++ [GroupTitle i (length group)] in
      match group with
      | [] => (echoed, true)
      | f :: others =>
          let shortest_name_file :=
            Core.py_min (fun f => String.length (name f)) f others in
          print_groups (S i) rest
            (echoed ++ map (fun file_path =>
                              Listed file_path (bool_decide (file_path = shortest_name_file)))
                           group)
      end
  end.

Definition print_duplicate_groups (duplicate_groups : list (list Path))
    : list listing * bool :=
  if decide (duplicate_groups = []) then ([NoDuplicateFiles], false)
  else print_groups 1 duplicate_groups
         [FoundGroupCount (length duplicate_groups);
          TotalDuplicateFiles (total_duplicates duplicate_groups)].

End CoreScan.

(** ** File names ([utils.safe_filename]) *)

Module Utils.

(** A [str] is the list of its characters. *)

(** The characters of the class that [re.sub] replaces: the angle
    brackets, the colon, the double quote, the two slashes, the bar, the
    question mark and the star. *)
Definition problematic : list ascii :=
  ["<"; ">"; ":"; "034"; "/"; "\"; "|"; "?"; "*"]%char.

(** [re.sub] of that class by an underscore. *)
Definition replace_problematic (s : list ascii) : list ascii :=
  map (fun c => if decide (c ∈ problematic) then "_"%char else c) s.

(** [s.lstrip(chars)], [s.rstrip(chars)] and [s.strip(chars)] *)
Fixpoint lstrip (chars s : list ascii) : list ascii :=
  match s with
  | [] => []
  | c :: rest => if decide (c ∈ chars) then lstrip chars rest else s
  end.

Definition rstrip (chars s : list ascii) : list ascii :=
  reverse (lstrip chars (reverse s)).

Definition strip (chars s : list ascii) : list ascii :=
  rstrip chars (lstrip chars s).

(** [s.rsplit('.', 1)] for an [s] that holds a dot: what is before the last
    dot and what is after it; [None] when [s] holds none. *)
Fixpoint rsplit_dot (s : list ascii) : option (list ascii * list ascii) :=
  match s with
  | [] => None
  | c :: rest =>
      match rsplit_dot rest with
      | Some (before, after) => Some (c :: before, after)
      | None => if decide (c = "."%char) then Some ([], rest) else None
      end
  end.

(** The slice [s[:k]]: a negative [k] counts from the end. *)
Definition slice_to (k : Z) (s : list ascii) : list ascii :=
  if (k <? 0)%Z then take (length s - Z.to_nat (- k)) s else take (Z.to_nat k) s.

Definition safe_filename (filename : list ascii) : list ascii :=
  let safe_name := replace_problematic filename in
  let safe_name := strip [" "; "."]%char safe_name in
  let safe_name :=
    if decide (safe_name = []) then list_ascii_of_string "unnamed_file" else safe_name in
  if decide (200 < length safe_name) then
    let '(name, ext) := default (safe_name, []) (rsplit_dot safe_name) in
    slice_to (200 - Z.of_nat (length ext) - 1) name
    ++ (if decide (ext = []) then [] else "."%char :: ext)
  else safe_name.

End Utils.

(** ** Vocabulary of the further properties *)

(** [entered self fs d below]: walking down from [d] along [below], every
    directory in between was one the traversal enters: a directory, and not
    a symbolic link unless links are followed. *)
Definition entered (self : DuplicateScanner) (fs : filesystem) (d below : Path) : Prop :=
  ∀ k, 0 < k < length below →
    is_dir fs (d ++ take k below) = Some true
    ∧ (follow_symlinks self = false → is_symlink fs (d ++ take k below) = Some false).

(** [found_under self fs d p]: [p] lies strictly below the directory [d]. *)
Definition found_under (self : DuplicateScanner) (fs : filesystem) (d p : Path) : Prop :=
  ∃ below, p = d ++ below ∧ below ≠ [] ∧ entered self fs d below.

(** What [_collect_files] says of a collected file: the root it came
    from and the way down from that root. *)
Definition collected_from (self : DuplicateScanner) (fs : filesystem)
    (paths : list Path) (p : Path) : Prop :=
  ∃ root below,
    root ∈ paths ∧ p = root ++ below
    ∧ (below = [] → is_file fs root = Some true)
    ∧ (below ≠ [] → is_dir fs root = Some true)
    ∧ (recursive self = false → length below ≤ 1)
    ∧ entered self fs root below.

(** A tree with a directory that cannot be listed and an entry that cannot
    be examined. *)
Definition guarded_fs : filesystem :=
  list_to_map
    [ (["g"], directory ["a"; "closed"; "b"; "hidden"; "c"]);
      (["g"; "a"], regular_file "same");
      (["g"; "closed"], Inode (Directory ["inside"]) false true false true);
      (["g"; "closed"; "inside"], regular_file "same");
      (["g"; "b"], regular_file "same");
      (["g"; "hidden"], Inode (RegularFile []) false false true true);
      (["g"; "c"], regular_file "same") ]%string.

(** A stand-in for [hashlib] whose digest is the input itself: under it
    the hash strategy groups by content. *)
Definition content_runtime : Runtime :=
  {| digest := fun _ data => string_of_list_byte data; recursion_limit := 0 |}.

(** The scanner whose byte strategy reads as [files_are_identical] does
    by default. *)
Definition chunked_8192 : DuplicateScanner := Scanner "sha256" 0 None true false 8192.

(** The key under which the first pass of [find_duplicates] files a path. *)
Definition hash_key `{Runtime} (fs : filesystem) (p : Path) : option string :=
  match is_file fs p with
  | Some true =>
      match CoreScan.calculate_file_hash fs p 8192 with
      | Some file_hash => if decide (file_hash = EmptyString) then None else Some file_hash
      | None => None
      end
  | _ => None
  end.

(** The files of the entry lines that carry the given mark, in the order
    written: [keep = true] for [KEEP], [false] for [DUPLICATE]. *)
Definition marked (keep : bool) (lines : list report_line) : list Path :=
  omap (fun line => match line with
                    | Entry _ file_path k =>
                        if bool_decide (k = keep) then Some file_path else None
                    | _ => None
                    end) lines.

(** The sizes of the files of a list, added up. *)
Definition sizes_total (fs : filesystem) (files : list Path) : Z :=
  foldr (fun p total => (default 0 (stat fs p) + total)%Z) 0%Z files.

(** A group the report can be written for. *)
Definition reportable (fs : filesystem) (group : list Path) : Prop :=
  ∃ first, head group = Some first ∧ is_Some (stat fs first).

(** The files [delete_duplicates] would delete or tries to delete, group
    after group. *)
Definition planned (duplicate_groups : list (list Path)) : list Path :=
  concat (map (fun group => match Core.deletion_plan group with
                            | Some (_, files_to_delete) => files_to_delete
                            | None => []
                            end) duplicate_groups).

(** The files a listing shows without the mark of the file to keep. *)
Definition unmarked (echoed : list CoreScan.listing) : list Path :=
  omap (fun line => match line with
                    | CoreScan.Listed file_path false => Some file_path
                    | _ => None
                    end) echoed.

(** The files of the [Delete] lines of a dry run. *)
Definition would_delete (echoed : list Core.echo) : list Path :=
  omap (fun line => match line with Core.Delete f => Some f | _ => None end) echoed.

(** The name after the first three steps: replaced, stripped, and not
    empty. *)
Definition cleaned (filename : list ascii) : list ascii :=
  let safe_name := Utils.strip [" "; "."]%char (Utils.replace_problematic filename) in
  if decide (safe_name = []) then list_ascii_of_string "unnamed_file" else safe_name.

(** * Properties *)

(** ** Purge *)

Section purge.
Implicit Types (st : purge_state) (fs : filesystem) (group : list Path).

Lemma purge_file_dry_run st p :
  purge_file true st p =
  PurgeState (removed_count st) (printed st ++ [WouldRemove p]) (disk st).
Proof. reflexivity. Qed.

Lemma purge_files_dry_run st ps :
  foldl (purge_file true) st ps =
  PurgeState (removed_count st) (printed st ++ map WouldRemove ps) (disk st).
Proof.
  revert st. induction ps as [|p ps IH]; intros st; simpl.
  - rewrite app_nil_r. by destruct st.
  - rewrite IH. simpl. by rewrite <- app_assoc.
Qed.

Lemma purge_groups_dry_run st groups :
  foldl (purge_group true) st groups =
  PurgeState (removed_count st)
    (printed st ++ map WouldRemove (concat (map files_to_remove groups)))
    (disk st).
Proof.
  revert st. induction groups as [|g groups IH]; intros st; simpl.
  - rewrite app_nil_r. by destruct st.
  - rewrite IH. unfold purge_group. rewrite purge_files_dry_run. simpl.
    by rewrite map_app, app_assoc.
Qed.

Lemma total_duplicates_tails groups :
  Forall (fun group => group ≠ []) groups →
  Z.of_nat (length (concat (map files_to_remove groups))) = total_duplicates groups.
Proof.
  unfold total_duplicates, files_to_remove.
  induction 1 as [|g groups Hg _ IH]; simpl; [done|].
  rewrite length_app, Nat2Z.inj_add, IH, length_drop.
  destruct g; [done|]. simpl. lia.
Qed.

Lemma unlink_Some fs p fs' :
  unlink fs p = Some fs' →
  fs' !! p = None ∧ dom fs' = dom fs ∖ {[p]} ∧ size fs = S (size fs').
Proof.
  unfold unlink. intros Hu.
  destruct (fs !! p) as [e|] eqn:Hp; [|done].
  assert (fs' = delete p (alter (remove_name (name p)) (removelast p) fs)) as ->.
  { destruct (kind e), (unlink_ok e); congruence. }
  split; [apply lookup_delete_eq|].
  split; [by rewrite dom_delete_L, dom_alter_L|].
  assert (is_Some (alter (remove_name (name p)) (removelast p) fs !! p)) as [e' He'].
  { apply lookup_alter_is_Some. eauto. }
  rewrite map_size_delete_Some by eauto.
  rewrite <- !size_dom, dom_alter_L.
  assert (0 < size (dom fs)); [|lia].
  rewrite size_dom. destruct (decide (size fs = 0)) as [H0|]; [|lia].
  apply map_size_empty_inv in H0. subst. by rewrite lookup_empty in Hp.
Qed.

Lemma progress_refl st : progress st st [].
Proof.
  unfold progress. simpl. rewrite app_nil_r.
  split_and!; [done | constructor | lia | lia | set_solver].
Qed.

Lemma progress_trans st0 st1 st2 new1 new2 :
  progress st0 st1 new1 → progress st1 st2 new2 → progress st0 st2 (new1 ++ new2).
Proof.
  intros (Hp1 & Hw1 & Hc1 & Hs1 & Hd1) (Hp2 & Hw2 & Hc2 & Hs2 & Hd2).
  unfold progress. rewrite filter_app, length_app, fmap_app, list_to_set_app_L.
  split_and!.
  - by rewrite Hp2, Hp1, app_assoc.
  - by apply Forall_app.
  - lia.
  - lia.
  - rewrite Hd2, Hd1. set_solver.
Qed.

(** What one deletion attempt does to the state. *)
Lemma purge_file_live st p :
  ∃ m, subject m = p ∧ progress st (purge_file false st p) [m].
Proof.
  unfold purge_file. destruct (unlink (disk st) p) as [fs'|] eqn:Hu.
  - apply unlink_Some in Hu as (_ & Hd & Hs).
    exists (Removed p). split; [done|]. unfold progress. simpl.
    split_and!; [done | by apply Forall_singleton | lia | lia | set_solver].
  - exists (ErrorRemoving p). split; [done|]. unfold progress. simpl.
    split_and!; [done | by apply Forall_singleton | lia | lia | set_solver].
Qed.

Lemma purge_files_live st ps :
  ∃ new, subject <$> new = ps ∧ progress st (foldl (purge_file false) st ps) new.
Proof.
  revert st. induction ps as [|p ps IH]; intros st; simpl.
  - exists []. split; [done | apply progress_refl].
  - destruct (purge_file_live st p) as (m & Hm & H1).
    destruct (IH (purge_file false st p)) as (new & Hnew & H2).
    exists ([m] ++ new). split; [by rewrite fmap_app, Hnew; simpl; rewrite Hm|].
    eapply progress_trans; eauto.
Qed.

Lemma purge_groups_live st groups :
  ∃ new, subject <$> new = concat (map files_to_remove groups)
         ∧ progress st (foldl (purge_group false) st groups) new.
Proof.
  revert st. induction groups as [|g groups IH]; intros st; simpl.
  - exists []. split; [done | apply progress_refl].
  - destruct (purge_files_live st (files_to_remove g)) as (new1 & Hn1 & H1).
    destruct (IH (purge_group false st g)) as (new2 & Hn2 & H2).
    exists (new1 ++ new2). split; [by rewrite fmap_app, Hn1, Hn2|].
    eapply progress_trans; eauto.
Qed.

(** C3. A purge with [dry_run = True] deletes nothing: whatever the groups,
    the filesystem after the call is the filesystem before it. *)
Theorem purge_dry_run_leaves_filesystem fs (duplicate_groups : list (list Path)) :
  disk (purge_duplicates fs duplicate_groups true) = fs.
Proof. unfold purge_duplicates. by rewrite purge_groups_dry_run. Qed.

(** C4, as the code has it.  A purge with [dry_run = True] returns the count
    [0] (nothing was removed); what amounts to [total_duplicates], the sum
    of [len(group) - 1] over the groups, is the number of [Would remove]
    lines it prints, one per member after the first, provided no group is
    empty. *)
Theorem purge_dry_run_report fs (duplicate_groups : list (list Path)) :
  Forall (fun group => group ≠ []) duplicate_groups →
  let st := purge_duplicates fs duplicate_groups true in
  removed_count st = 0%Z
  ∧ printed st = WouldRemove <$> concat (map files_to_remove duplicate_groups)
  ∧ Z.of_nat (length (filter is_would_remove (printed st)))
    = total_duplicates duplicate_groups.
Proof.
  intros Hne. unfold purge_duplicates. rewrite purge_groups_dry_run. simpl.
  split_and!; [done | done |].
  rewrite <- total_duplicates_tails by done.
  assert (∀ l : list Path,
            filter is_would_remove (WouldRemove <$> l) = WouldRemove <$> l) as Hall.
  { induction l as [|p l IH]; [done|].
    rewrite fmap_cons, filter_cons_True by done. by rewrite IH. }
  by rewrite Hall, length_fmap.
Qed.


End purge.

(** A dry run on the group of the end-to-end scenario. *)
Lemma purge_dry_run_report_witness :
  let groups := [[["d"; "a.txt"]; ["d"; "b.txt"]]]%string in
  let st := purge_duplicates hello_fs groups true in
  Forall (fun group => group ≠ []) groups
  ∧ removed_count st = 0%Z
  ∧ printed st = [WouldRemove ["d"; "b.txt"]%string]
  ∧ Z.of_nat (length (filter is_would_remove (printed st))) = 1%Z.
Proof.
  assert (Forall (fun group : list Path => group ≠ [])
            [[["d"; "a.txt"]; ["d"; "b.txt"]]]%string) as Hne
    by (repeat constructor; discriminate).
  split; [exact Hne|].
  exact (purge_dry_run_report hello_fs _ Hne).
Defined.

(** The count returned is not the sum: on the group [[a.txt, b.txt]] a dry
    run returns [0], not [total_duplicates = 1]. *)
Lemma purge_dry_run_count_counterexample :
  let groups := [[["d"; "a.txt"]; ["d"; "b.txt"]]]%string in
  removed_count (purge_duplicates hello_fs groups true) ≠ total_duplicates groups.
Proof. vm_compute. discriminate. Qed.

(** ** Construction *)

(** C8. Constructing a scanner with an algorithm name outside [md5], [sha1],
    [sha256], [sha512] raises [ValueError]; the constructor does not look
    at the filesystem, and a scan command given such a name ends with that
    error whatever the filesystem and the roots, no scan taking place.  With
    a name of the list the scanner is built. *)
Theorem init_validates_hash_algorithm (alg : string) (min_size : Z)
    (max_size : option Z) (recursive follow_symlinks : bool) (chunk_size : Z) :
  (alg ∉ ["md5"; "sha1"; "sha256"; "sha512"]%string →
     ∃ msg,
       __init__ alg min_size max_size recursive follow_symlinks chunk_size
         = Raise (ValueError msg)
       ∧ ∀ (R : Runtime) fs paths use_byte_comparison,
           @scan_command R alg min_size max_size recursive follow_symlinks chunk_size
             fs paths use_byte_comparison = Raise (ValueError msg))
  ∧ (alg ∈ ["md5"; "sha1"; "sha256"; "sha512"]%string →
       __init__ alg min_size max_size recursive follow_symlinks chunk_size
         = Ok (Scanner alg min_size max_size recursive follow_symlinks chunk_size)).
Proof.
  unfold scan_command, __init__, supported_algorithms. split; intros Halg.
  - eexists. rewrite decide_True by done. split; [reflexivity|]. by intros.
  - rewrite decide_False; [done|]. by intros [].
Qed.

Lemma init_validates_hash_algorithm_witness :
  ∃ msg, __init__ "md4" 0 None true false 8192 = Raise (ValueError msg)
         ∧ @scan_command toy_runtime "md4" 0 None true false 8192
             hello_fs [["d"%string]] false = Raise (ValueError msg).
Proof.
  destruct (init_validates_hash_algorithm "md4" 0 None true false 8192) as [Hbad _].
  destruct Hbad as (msg & Hinit & Hcmd).
  - intros Hin. repeat (apply elem_of_cons in Hin as [Hin|Hin]; [discriminate|]).
    by apply elem_of_nil in Hin.
  - exists msg. split; [exact Hinit | apply Hcmd].
Defined.

(** ** The inclusion predicate *)


(** ** The shortest-name keeper *)

Section shortest_name.
Context {A : Type} (key : A → nat).

Lemma py_min_snoc x xs y :
  Core.py_min key x (xs ++ [y]) =
  if decide (key y < key (Core.py_min key x xs)) then y else Core.py_min key x xs.
Proof. unfold Core.py_min. by rewrite foldl_snoc. Qed.

(** [min] returns an element of least key, and the first such. *)
Lemma py_min_spec x xs :
  ∃ i, (x :: xs) !! i = Some (Core.py_min key x xs)
       ∧ ∀ j y, (x :: xs) !! j = Some y →
           key (Core.py_min key x xs) ≤ key y
           ∧ (j < i → key (Core.py_min key x xs) < key y).
Proof.
  induction xs as [|z xs IH] using rev_ind.
  - exists 0. split; [done|]. intros [|j] y Hj; simplify_eq/=. lia.
  - destruct IH as (i & Hi & Hmin). rewrite py_min_snoc.
    rewrite app_comm_cons. case_decide as Hlt.
    + exists (length (x :: xs)). split.
      { by rewrite lookup_app_r, Nat.sub_diag by lia. }
      intros j y Hj. apply lookup_app_Some in Hj as [Hj|[Hlen Hj]].
      * destruct (Hmin j y Hj). lia.
      * apply list_lookup_singleton_Some in Hj as [? ->]. lia.
    + exists i. split.
      { by apply lookup_app_l_Some. }
      intros j y Hj. apply lookup_app_Some in Hj as [Hj|[Hlen Hj]].
      * by apply Hmin.
      * apply list_lookup_singleton_Some in Hj as [? ->].
        apply lookup_lt_Some in Hi. lia.
Qed.
End shortest_name.

Lemma delete_files_echo (out : list Core.echo) (fs : filesystem) (fl : list Path) :
  ∃ new,
    (foldl Core.delete_file (out, fs) fl).1 = out ++ new
    ∧ Core.echo_subject <$> new = fl
    ∧ Forall (fun e => e = Core.Deleted (Core.echo_subject e)
                       ∨ e = Core.ErrorDeleting (Core.echo_subject e)) new.
Proof.
  revert out fs. induction fl as [|f fl IH]; intros out fs; simpl.
  - exists []. by rewrite app_nil_r.
  - unfold Core.delete_file at 2. simpl.
    destruct (unlink fs f) as [fs'|];
      [destruct (IH (out ++ [Core.Deleted f]) fs') as (new & -> & Hs & Ha)
      |destruct (IH (out ++ [Core.ErrorDeleting f]) fs) as (new & -> & Hs & Ha)].
    all: eexists (_ :: new); rewrite <- app_assoc; split; [reflexivity|].
    all: split; [by rewrite fmap_cons, Hs|].
    all: constructor; [simpl; by eauto | done].
Qed.

(** C6. In the alternate deletion mode, for every group of at least two
    files the kept file is a member whose name (the last component of the
    path) is of least length, the first such member in the order of the
    group, and the files to delete are all the members other than it, in
    order: a dry run lists exactly those and leaves the filesystem as it
    was, a live run attempts exactly those, each once. *)
Theorem shortest_name_keeper (fs : filesystem) (group : list Path) :
  2 ≤ length group →
  ∃ keeper i,
    Core.deletion_plan group = Some (keeper, filter (fun f => f ≠ keeper) group)
    ∧ group !! i = Some keeper
    ∧ (∀ j f, group !! j = Some f →
         String.length (name keeper) ≤ String.length (name f)
         ∧ (j < i → String.length (name keeper) < String.length (name f)))
    ∧ Core.delete_duplicates fs [group] true
      = (Core.Keep keeper :: map Core.Delete (filter (fun f => f ≠ keeper) group), fs)
    ∧ ∃ attempts,
        (Core.delete_duplicates fs [group] false).1 = Core.Keeping keeper :: attempts
        ∧ Core.echo_subject <$> attempts = filter (fun f => f ≠ keeper) group
        ∧ Forall (fun e => e = Core.Deleted (Core.echo_subject e)
                           ∨ e = Core.ErrorDeleting (Core.echo_subject e)) attempts.
Proof.
  intros Hlen. destruct group as [|f [|g rest]]; simpl in Hlen; try lia.
  destruct (py_min_spec (fun f => String.length (name f)) f (g :: rest))
    as (i & Hi & Hmin).
  eexists _, i. split; [reflexivity|]. split; [exact Hi|]. split; [exact Hmin|].
  split; [reflexivity|].
  unfold Core.delete_duplicates, Core.delete_group.
  cbn [foldl Core.deletion_plan fst snd app].
  edestruct delete_files_echo as (new & -> & Hs & Ha).
  exists new. split; [reflexivity|]. split; [exact Hs | exact Ha].
Qed.

Lemma shortest_name_keeper_witness :
  let group := [["d"; "notes-copy.txt"]; ["a-long-directory"; "b.txt"]; ["d"; "a.txt"]]%string in
  2 ≤ length group
  ∧ ∃ keeper i,
      Core.deletion_plan group = Some (keeper, filter (fun f => f ≠ keeper) group)
      ∧ group !! i = Some keeper
      ∧ (∀ j f, group !! j = Some f →
           String.length (name keeper) ≤ String.length (name f)
           ∧ (j < i → String.length (name keeper) < String.length (name f)))
      ∧ Core.delete_duplicates hello_fs [group] true
        = (Core.Keep keeper :: map Core.Delete (filter (fun f => f ≠ keeper) group),
           hello_fs)
      ∧ ∃ attempts,
          (Core.delete_duplicates hello_fs [group] false).1 = Core.Keeping keeper :: attempts
          ∧ Core.echo_subject <$> attempts = filter (fun f => f ≠ keeper) group
          ∧ Forall (fun e => e = Core.Deleted (Core.echo_subject e)
                             ∨ e = Core.ErrorDeleting (Core.echo_subject e)) attempts.
Proof.
  assert (2 ≤ length [["d"; "notes-copy.txt"]; ["a-long-directory"; "b.txt"]; ["d"; "a.txt"]]%string)
    as Hlen by (simpl; lia).
  split; [exact Hlen|].
  exact (shortest_name_keeper hello_fs _ Hlen).
Defined.

(** On that group the file kept is [b.txt], whose path is the longest but
    whose name is the shortest, ahead of [a.txt] whose name is as short. *)
Example shortest_name_keeper_example :
  Core.deletion_plan [["d"; "notes-copy.txt"]; ["a-long-directory"; "b.txt"]; ["d"; "a.txt"]]%string
  = Some (["a-long-directory"; "b.txt"], [["d"; "notes-copy.txt"]; ["d"; "a.txt"]])%string.
Proof. reflexivity. Qed.

(** ** Dictionaries of lists *)

Section defaultdict_facts.
Context {K V : Type} `{EqDecision K}.
Implicit Types (k : K) (v : V) (d : list (K * list V)).

Lemma dict_append_keys k v d :
  (dict_append k v d).*1 = if decide (k ∈ d.*1) then d.*1 else d.*1 ++ [k].
Proof.
  induction d as [|[k' vs] d IH]; [done|].
  cbn [dict_append]. destruct (decide (k = k')) as [->|Hne]; rewrite !fmap_cons; cbn [fst].
  - rewrite decide_True; [done | apply list_elem_of_here].
  - rewrite IH. destruct (decide (k ∈ d.*1)) as [Hin|Hnin].
    + rewrite decide_True; [done | by apply list_elem_of_further].
    + rewrite decide_False; [done | by intros [?|?]%elem_of_cons].
Qed.

Lemma dict_append_NoDup k v d : NoDup d.*1 → NoDup (dict_append k v d).*1.
Proof.
  intros Hd. rewrite dict_append_keys. case_decide; [done|].
  apply NoDup_app. split_and!; [done | | apply NoDup_singleton].
  intros x Hx ->%list_elem_of_singleton. done.
Qed.

Lemma dict_get_append k' k v d :
  dict_get k' (dict_append k v d) =
  if decide (k' = k) then dict_get k' d ++ [v] else dict_get k' d.
Proof.
  induction d as [|[k0 vs] d IH]; simpl.
  - by repeat case_decide.
  - destruct (decide (k = k0)) as [->|Hne]; simpl.
    + by repeat case_decide.
    + rewrite IH. repeat case_decide; congruence.
Qed.

Lemma dict_get_elem_of k vs d : NoDup d.*1 → (k, vs) ∈ d → dict_get k d = vs.
Proof.
  induction d as [|[k0 vs0] d IH]; simpl; intros Hnd Hin.
  - by apply elem_of_nil in Hin.
  - apply NoDup_cons in Hnd as [Hk0 Hnd].
    apply elem_of_cons in Hin as [[= <- <-]|Hin].
    + by rewrite decide_True.
    + rewrite decide_False; [by apply IH|].
      intros ->. apply Hk0. apply list_elem_of_fmap. by exists (k0, vs).
Qed.

Section group_into.
Context (key : V → option K).

Lemma group_into_NoDup xs d : NoDup d.*1 → NoDup (group_into key xs d).*1.
Proof.
  revert d. induction xs as [|x xs IH]; intros d Hd; simpl; [done|].
  apply IH. destruct (key x); [by apply dict_append_NoDup | done].
Qed.

Lemma dict_get_group_into k xs d :
  dict_get k (group_into key xs d)
  = dict_get k d ++ filter (fun x => key x = Some k) xs.
Proof.
  revert d. induction xs as [|x xs IH]; intros d; simpl.
  - by rewrite app_nil_r.
  - rewrite IH. destruct (key x) as [k'|] eqn:Hx.
    + rewrite dict_get_append. case_decide as Hk.
      * subst. rewrite filter_cons_True by done. by rewrite <- app_assoc.
      * rewrite filter_cons_False; [done|]. congruence.
    + rewrite filter_cons_False; [done|]. congruence.
Qed.

(** The list filed under a key is the sublist of the inputs with that
    key, in input order. *)
Lemma group_into_elem_of k vs xs :
  (k, vs) ∈ group_into key xs [] → vs = filter (fun x => key x = Some k) xs.
Proof.
  intros Hin. apply dict_get_elem_of in Hin.
  - by rewrite dict_get_group_into in Hin.
  - apply group_into_NoDup. constructor.
Qed.
End group_into.
End defaultdict_facts.

(** ** Lists of groups *)

Lemma disjoint_groups_nil : disjoint_groups [].
Proof. intros i j g1 g2 p Hi. by rewrite lookup_nil in Hi. Qed.

Lemma disjoint_groups_app gs1 gs2 :
  disjoint_groups gs1 → disjoint_groups gs2 →
  (∀ g1 g2 p, g1 ∈ gs1 → g2 ∈ gs2 → p ∈ g1 → p ∈ g2 → False) →
  disjoint_groups (gs1 ++ gs2).
Proof.
  intros H1 H2 H12 i j g1 g2 p Hi Hj Hp1 Hp2.
  apply lookup_app_Some in Hi as [Hi|[Hli Hi]];
    apply lookup_app_Some in Hj as [Hj|[Hlj Hj]].
  - eauto.
  - exfalso. eapply H12; eauto using list_elem_of_lookup_2.
  - exfalso. eapply H12; eauto using list_elem_of_lookup_2.
  - specialize (H2 _ _ _ _ _ Hi Hj Hp1 Hp2). lia.
Qed.

Lemma elem_of_concat {A} (x : A) (ls : list (list A)) :
  x ∈ concat ls ↔ ∃ l, x ∈ l ∧ l ∈ ls.
Proof.
  induction ls as [|l ls IH]; simpl.
  - split; [by intros ?%elem_of_nil | by intros (? & _ & ?%elem_of_nil)].
  - rewrite elem_of_app, IH. split.
    + intros [?|(l' & ? & ?)]; [exists l | exists l'];
        eauto using list_elem_of_here, list_elem_of_further.
    + intros (l' & ? & [->|?]%elem_of_cons); eauto.
Qed.

Lemma NoDup_concat_disjoint gs : NoDup (concat gs) → disjoint_groups gs.
Proof.
  induction gs as [|g gs IH]; simpl; intros Hnd; [apply disjoint_groups_nil|].
  apply NoDup_app in Hnd as (_ & Hcross & Hgs).
  change (g :: gs) with ([g] ++ gs). apply disjoint_groups_app; [|by apply IH|].
  - intros [|i] [|j] g1 g2 p Hi Hj; simplify_eq/=; done.
  - intros g1 g2 p ->%list_elem_of_singleton Hg2 Hp1 Hp2.
    eapply Hcross; [done|]. apply elem_of_concat. eauto.
Qed.

(** Groups filed under distinct labels, each member carrying the label of
    its group, are disjoint. *)
Lemma labelled_disjoint {L} (label : Path → option L) (d : list (L * list Path)) :
  NoDup d.*1 →
  (∀ l g p, (l, g) ∈ d → p ∈ g → label p = Some l) →
  disjoint_groups d.*2.
Proof.
  intros Hnd Hlab i j g1 g2 p Hi Hj Hp1 Hp2.
  apply list_lookup_fmap_Some in Hi as ([l1 g1'] & ? & Hi).
  apply list_lookup_fmap_Some in Hj as ([l2 g2'] & ? & Hj). simplify_eq/=.
  assert (label p = Some l1) as H1 by eauto using list_elem_of_lookup_2.
  assert (label p = Some l2) as H2 by eauto using list_elem_of_lookup_2.
  assert (l1 = l2) as <- by congruence.
  eapply NoDup_lookup; [exact Hnd| |]; rewrite list_lookup_fmap.
  - by rewrite Hi.
  - by rewrite Hj.
Qed.

Lemma filter_values {L A} (P : A → Prop) `{∀ x, Decision (P x)} (d : list (L * A)) :
  filter P d.*2 = (filter (fun kv => P kv.2) d).*2.
Proof.
  induction d as [|[l a] d IH]; [done|].
  rewrite fmap_cons. cbn [snd]. destruct (decide (P a)).
  - rewrite !filter_cons_True by done. by rewrite fmap_cons, IH.
  - by rewrite !filter_cons_False.
Qed.


(** ** The two comparison strategies *)

Section strategies.
Context `{Runtime} (self : DuplicateScanner) (fs : filesystem).
Implicit Types (files group : list Path) (p : Path).

(** The hash strategy returns the classes of at least two files under
    "same digest", each in input order, and no path is in two of them. *)
Lemma _find_duplicates_hash_spec files :
  Forall (fun group =>
            1 < length group
            ∧ ∃ h, group = filter (fun p => _calculate_file_hash self fs p = Some h) files)
         (_find_duplicates_hash self fs files)
  ∧ disjoint_groups (_find_duplicates_hash self fs files).
Proof.
  unfold _find_duplicates_hash. cbv zeta.
  set (d := group_into (_calculate_file_hash self fs) files []).
  assert (NoDup d.*1) as Hnd by (apply group_into_NoDup; constructor).
  split.
  - apply Forall_forall. intros g [Hlen Hg]%list_elem_of_filter.
    split; [done|]. apply list_elem_of_fmap in Hg as ([h g'] & -> & Hin).
    exists h. by apply group_into_elem_of in Hin.
  - rewrite filter_values.
    apply (labelled_disjoint (_calculate_file_hash self fs)).
    + eapply sublist_NoDup; [exact Hnd|]. apply fmap_sublist, sublist_filter.
    + intros h g p [_ Hin]%list_elem_of_filter Hp.
      apply group_into_elem_of in Hin. subst g.
      by apply list_elem_of_filter in Hp as [? _].
Qed.

(** The inner loop of the byte strategy adds to the group the candidates
    not yet matched that compare equal to the reference, in order, and
    marks them. *)
Lemma byte_candidates_spec reference candidates group processed :
  ∃ added,
    byte_candidates self fs reference candidates group processed
      = (group ++ added, list_to_set added ∪ processed)
    ∧ added `sublist_of` candidates
    ∧ NoDup added
    ∧ Forall (fun c => (c ∉ processed)
                       ∧ _files_are_identical self fs reference c = Some true) added.
Proof.
  revert group processed.
  induction candidates as [|c rest IH]; intros group processed; simpl.
  - exists []. rewrite app_nil_r. split_and!; [f_equal; set_solver | done | constructor | done].
  - destruct (decide (c ∈ processed)) as [Hc|Hc].
    { destruct (IH group processed) as (added & -> & Hsub & Hnd & Hall).
      exists added. split_and!; [done | by apply sublist_cons | done | done]. }
    destruct (_files_are_identical self fs reference c) as [[]|] eqn:Hid.
    2,3: destruct (IH group processed) as (added & -> & Hsub & Hnd & Hall);
      exists added; split_and!; [done | by apply sublist_cons | done | done].
    destruct (IH (group ++ [c]) ({[c]} ∪ processed)) as (added & -> & Hsub & Hnd & Hall).
    exists (c :: added). split_and!.
    + rewrite <- app_assoc. f_equal. set_solver.
    + by apply sublist_skip.
    + apply NoDup_cons. split; [|done]. intros Hin.
      rewrite Forall_forall in Hall. destruct (Hall c Hin) as [Hnot _]. set_solver.
    + constructor; [done|]. eapply Forall_impl; [exact Hall|].
      intros c' [Hnot ?]. split; [set_solver | done].
Qed.

Lemma byte_references_spec files duplicate_groups processed :
  ∃ new,
    byte_references self fs files duplicate_groups processed = duplicate_groups ++ new
    ∧ NoDup (concat new)
    ∧ (∀ p, p ∈ concat new → p ∉ processed)
    ∧ Forall (byte_group_ok self fs files) new.
Proof.
  revert duplicate_groups processed.
  induction files as [|r rest IH]; intros groups processed; simpl.
  - exists []. rewrite app_nil_r. split_and!; [done | constructor | | done].
    by intros p ?%elem_of_nil.
  - destruct (decide (r ∈ processed)) as [Hr|Hr].
    { destruct (IH groups processed) as (new & -> & Hnd & Hfresh & Hok).
      exists new. split_and!; try done.
      eapply Forall_impl; [exact Hok|].
      intros g (Hlen & ref & m & -> & Hsub & Hid). split; [done|].
      exists ref, m. split_and!; [done | by apply sublist_cons | done]. }
    destruct (byte_candidates_spec r rest [r] ({[r]} ∪ processed))
      as (added & -> & Hsub & Hnd & Hall).
    set (group := [r] ++ added).
    set (processed' := list_to_set added ∪ ({[r]} ∪ processed)).
    destruct (IH (if decide (1 < length group) then groups ++ [group] else groups)
                 processed') as (new & -> & Hnd' & Hfresh & Hok).
    assert (Forall (byte_group_ok self fs (r :: rest)) new) as Hok'.
    { eapply Forall_impl; [exact Hok|].
      intros g (Hlen & ref & m & -> & Hs & Hid). split; [done|].
      exists ref, m. split_and!; [done | by apply sublist_cons | done]. }
    assert (∀ p, p ∈ group → p ∈ processed' ∧ p ∉ processed) as Hgroup.
    { intros p [->%list_elem_of_singleton|Hp]%elem_of_app.
      - split; [set_solver | done].
      - rewrite Forall_forall in Hall. destruct (Hall p Hp) as [Hnot _].
        split; [|set_solver]. apply elem_of_union_l.
        by apply elem_of_list_to_set. }
    assert (∀ p, p ∈ concat new → p ∉ processed) as Hfresh'.
    { intros p Hp Hin. apply (Hfresh p Hp). set_solver. }
    case_decide as Hlen.
    + exists (group :: new). split_and!.
      * by rewrite <- app_assoc.
      * change (NoDup (group ++ concat new)).
        apply NoDup_app. split_and!; [|by intros p [? _]%Hgroup ?%Hfresh|done].
        apply NoDup_cons. split; [|done]. intros Hin.
        rewrite Forall_forall in Hall. destruct (Hall r Hin) as [Hnot _]. set_solver.
      * change (concat (group :: new)) with (group ++ concat new).
        intros p [Hp|Hp]%elem_of_app; [by apply Hgroup | by apply Hfresh'].
      * constructor; [|done]. split; [done|]. exists r, added.
        split_and!; [done | by apply sublist_skip |].
        eapply Forall_impl; [exact Hall|]. by intros c [_ ?].
    + exists new. split_and!; done.
Qed.

(** The byte strategy returns groups of at least two files, each a
    reference followed by later files that compare equal to it, in input
    order, and no path occurs twice in the result. *)
Lemma _find_duplicates_byte_comparison_spec files :
  Forall (byte_group_ok self fs files) (_find_duplicates_byte_comparison self fs files)
  ∧ NoDup (concat (_find_duplicates_byte_comparison self fs files)).
Proof.
  unfold _find_duplicates_byte_comparison. case_decide.
  - split; constructor.
  - destruct (byte_references_spec files [] ∅) as (new & -> & Hnd & _ & Hok).
    done.
Qed.

End strategies.

(** ** The scan *)

Section scan_facts.
Context `{Runtime} (self : DuplicateScanner) (fs : filesystem).
Implicit Types (files file_list group : list Path) (p : Path) (use_byte : bool).

Lemma compare_size_groups_concat use_byte sg acc :
  foldl (compare_size_group self fs use_byte) acc sg
  = acc ++ concat (map (fun item => partition_groups self fs use_byte item.2) sg).
Proof.
  revert acc. induction sg as [|[s fl] sg IH]; intros acc; simpl.
  - by rewrite app_nil_r.
  - rewrite IH. unfold partition_groups. case_decide; [done|].
    by rewrite app_assoc.
Qed.

Lemma scan_files_concat files use_byte :
  scan_files self fs files use_byte
  = concat (map (fun item => partition_groups self fs use_byte item.2) (_group_by_size fs files)).
Proof.
  unfold scan_files. case_decide as Hnil.
  - by subst.
  - by rewrite compare_size_groups_concat.
Qed.

Lemma size_group_elem_of size file_list files :
  (size, file_list) ∈ _group_by_size fs files →
  file_list = filter (fun p => stat fs p = Some size) files.
Proof. apply group_into_elem_of. Qed.

Lemma size_groups_NoDup files : NoDup (_group_by_size fs files).*1.
Proof. apply group_into_NoDup. constructor. Qed.

Lemma partition_groups_spec use_byte file_list :
  Forall (fun group =>
            1 < length group ∧ group `sublist_of` file_list
            ∧ if use_byte
              then ∃ reference matched,
                     group = reference :: matched
                     ∧ Forall (fun c => _files_are_identical self fs reference c = Some true)
                              matched
              else ∃ h, Forall (fun p => _calculate_file_hash self fs p = Some h) group)
         (partition_groups self fs use_byte file_list)
  ∧ disjoint_groups (partition_groups self fs use_byte file_list)
  ∧ (use_byte = true → NoDup (concat (partition_groups self fs use_byte file_list))).
Proof.
  unfold partition_groups. case_decide.
  { split_and!; [constructor | apply disjoint_groups_nil | intros; constructor]. }
  destruct use_byte.
  - destruct (_find_duplicates_byte_comparison_spec self fs file_list) as [Hok Hnd].
    split_and!; [|by apply NoDup_concat_disjoint|done].
    eapply Forall_impl; [exact Hok|].
    intros g (Hlen & ref & m & -> & Hsub & Hid). eauto 10.
  - destruct (_find_duplicates_hash_spec self fs file_list) as [Hok Hdis].
    split_and!; [|done|done].
    eapply Forall_impl; [exact Hok|].
    intros g (Hlen & h & ->). split_and!; [done | apply sublist_filter |].
    exists h. apply Forall_forall. by intros p [? _]%list_elem_of_filter.
Qed.

Lemma partition_groups_members use_byte file_list group p :
  group ∈ partition_groups self fs use_byte file_list → p ∈ group → p ∈ file_list.
Proof.
  intros Hg Hp. destruct (partition_groups_spec use_byte file_list) as [Hok _].
  rewrite Forall_forall in Hok. destruct (Hok _ Hg) as (_ & Hsub & _).
  eauto using elem_of_sublist.
Qed.

(** Partitions filed under distinct sizes contribute disjoint groups. *)
Lemma size_groups_disjoint use_byte (sg : list (Z * list Path)) :
  NoDup sg.*1 →
  (∀ size fl p, (size, fl) ∈ sg → p ∈ fl → stat fs p = Some size) →
  disjoint_groups (concat (map (fun item => partition_groups self fs use_byte item.2) sg))
  ∧ (use_byte = true →
     NoDup (concat (concat (map (fun item => partition_groups self fs use_byte item.2) sg)))).
Proof.
  induction sg as [|[s fl] sg IH]; intros Hnd Hsize.
  { split; [apply disjoint_groups_nil | intros; constructor]. }
  rewrite fmap_cons in Hnd. apply NoDup_cons in Hnd as [Hs Hnd].
  destruct IH as [IHd IHn]; [done | by eauto using list_elem_of_further |].
  destruct (partition_groups_spec use_byte fl) as (_ & Hdis & Hnd1).
  assert (∀ g1 g2 p,
            g1 ∈ partition_groups self fs use_byte fl →
            g2 ∈ concat (map (fun item => partition_groups self fs use_byte item.2) sg) →
            p ∈ g1 → p ∈ g2 → False) as Hcross.
  { intros g1 g2 p Hg1 Hg2 Hp1 Hp2.
    apply elem_of_concat in Hg2 as (gs & Hg2 & Hgs).
    apply list_elem_of_fmap in Hgs as ([s' fl'] & -> & Hin). simpl in Hg2.
    assert (stat fs p = Some s) as Hps
      by eauto using partition_groups_members, list_elem_of_here.
    assert (stat fs p = Some s') as Hps'
      by eauto using partition_groups_members, list_elem_of_further.
    apply Hs. apply list_elem_of_fmap. exists (s', fl'). split; [|done].
    simpl. congruence. }
  simpl. split.
  - by apply disjoint_groups_app.
  - intros Hb. rewrite concat_app. apply NoDup_app. split_and!; [by auto| |by auto].
    intros p (g1 & Hp1 & Hg1)%elem_of_concat (g2 & Hp2 & Hg2)%elem_of_concat.
    eauto.
Qed.

(** The groups of a scan over the collected [files]. *)
Lemma scan_files_spec files use_byte :
  Forall (group_ok self fs use_byte files) (scan_files self fs files use_byte)
  ∧ disjoint_groups (scan_files self fs files use_byte)
  ∧ (use_byte = true → NoDup (concat (scan_files self fs files use_byte))).
Proof.
  rewrite scan_files_concat. split.
  - apply Forall_forall. intros g (gs & Hg & Hgs)%elem_of_concat.
    apply list_elem_of_fmap in Hgs as ([s fl] & -> & Hin). simpl in Hg.
    destruct (partition_groups_spec use_byte fl) as [Hok _].
    rewrite Forall_forall in Hok. destruct (Hok _ Hg) as (Hlen & Hsub & Hmatch).
    apply size_group_elem_of in Hin. subst fl.
    split_and!; [done | by exists s | done].
  - apply size_groups_disjoint; [apply size_groups_NoDup|].
    intros s fl p ->%size_group_elem_of Hp.
    by apply list_elem_of_filter in Hp as [? _].
Qed.



End scan_facts.

(** ** Collection *)

Section collection.
Context `{Runtime} (self : DuplicateScanner) (fs : filesystem).
Implicit Types (paths files items : list Path) (p : Path).

(** A root that does not exist is neither a file nor a directory: the loop
    moves on. *)
Lemma collect_from_missing p paths files :
  fs !! p = None →
  collect_from self fs (p :: paths) files = collect_from self fs paths files.
Proof. intros Hp. simpl. unfold is_file, is_dir. by rewrite Hp. Qed.

Lemma collect_from_existing paths files :
  collect_from self fs paths files
  = collect_from self fs (filter (fun p => is_Some (fs !! p)) paths) files.
Proof.
  revert files. induction paths as [|p paths IH]; intros files; [done|].
  destruct (fs !! p) as [e|] eqn:Hp.
  - rewrite filter_cons_True by (rewrite Hp; eauto). simpl.
    destruct (is_file fs p) as [[]|]; simpl; [by rewrite IH| |done].
    destruct (is_dir fs p) as [[]|]; simpl; [|by rewrite IH|done].
    match goal with |- rbind ?m _ = _ => destruct m end; simpl; [by rewrite IH|done].
  - rewrite filter_cons_False by (rewrite Hp; by intros []).
    by rewrite collect_from_missing.
Qed.


Lemma scan_entries_included (recurse : Path → result (list Path)) items files found :
  (∀ d fl, recurse d = Ok fl → Forall (included self fs) fl) →
  Forall (included self fs) files →
  scan_entries recurse self fs items files = Ok found →
  Forall (included self fs) found.
Proof.
  intros Hrec. revert files.
  induction items as [|item items IH]; intros files Hfiles; simpl.
  { by intros [= <-]. }
  destruct (is_file fs item) as [[]|]; [| |by intros [= <-]].
  { apply IH. destruct (_should_include_file self fs item) eqn:Hi; [|done].
    apply Forall_app. split; [done|]. by apply Forall_singleton. }
  destruct (is_dir fs item) as [[]|]; [|by apply IH|by intros [= <-]].
  destruct (if follow_symlinks self then Some true else negb <$> is_symlink fs item)
    as [[]|]; [|by apply IH|by intros [= <-]].
  destruct (recurse item) as [sub|[]] eqn:Hsub; [|by intros [= <-]|done|done].
  apply IH. apply Forall_app. eauto.
Qed.

Lemma scan_directory_included depth directory found :
  scan_directory depth self fs directory = Ok found → Forall (included self fs) found.
Proof.
  revert directory found. induction depth as [|depth IH]; intros directory found; simpl.
  - done.
  - destruct (iterdir fs directory) as [items|]; [|by intros [= <-]].
    apply scan_entries_included; [exact IH | constructor].
Qed.

Lemma direct_files_included items found :
  direct_files self fs items = Ok found → Forall (included self fs) found.
Proof.
  revert found. induction items as [|f items IH]; intros found; simpl.
  - by intros [= <-].
  - destruct (is_file fs f) as [regular|]; simpl; [|done].
    destruct (direct_files self fs items) as [found'|]; simpl; [|done].
    intros [= <-]. specialize (IH _ eq_refl).
    destruct regular; simpl; [|done].
    destruct (_should_include_file self fs f) eqn:Hf; [|done]. by constructor.
Qed.

Lemma collect_from_included paths files found :
  Forall (included self fs) files →
  collect_from self fs paths files = Ok found → Forall (included self fs) found.
Proof.
  revert files. induction paths as [|p paths IH]; intros files Hfiles; simpl.
  { by intros [= <-]. }
  destruct (is_file fs p) as [[]|]; simpl; [| |done].
  { apply IH. destruct (_should_include_file self fs p) eqn:Hi; [|done].
    apply Forall_app. split; [done|]. by apply Forall_singleton. }
  destruct (is_dir fs p) as [[]|]; simpl; [|by apply IH|done].
  destruct (recursive self).
  - destruct (_scan_directory_recursive self fs p) as [sub|] eqn:Hsub; simpl; [|done].
    apply IH. apply Forall_app. split; [done|].
    by eapply scan_directory_included.
  - destruct (iterdir fs p) as [items|]; simpl; [|done].
    destruct (direct_files self fs items) as [sub|] eqn:Hsub; simpl; [|done].
    apply IH. apply Forall_app. split; [done|]. by eapply direct_files_included.
Qed.

Lemma _collect_files_included paths files :
  _collect_files self fs paths = Ok files → Forall (included self fs) files.
Proof. apply collect_from_included. constructor. Qed.

Lemma scan_Ok paths use_byte groups :
  scan self fs paths use_byte = Ok groups →
  ∃ files, _collect_files self fs paths = Ok files
           ∧ groups = scan_files self fs files use_byte.
Proof.
  unfold scan. destruct (_collect_files self fs paths) as [files|]; simpl; [|done].
  intros [= <-]. eauto.
Qed.


End collection.

(** ** Results of a scan *)

(** C1. Whatever the filesystem, the roots and the strategy, every group
    that [scan] returns has at least two members, and all its members have
    one and the same size. *)
Theorem scan_groups_same_size `{Runtime} (self : DuplicateScanner) (fs : filesystem)
    (paths : list Path) (use_byte_comparison : bool) (groups : list (list Path)) :
  scan self fs paths use_byte_comparison = Ok groups →
  ∀ group, group ∈ groups →
    2 ≤ length group
    ∧ ∃ size, ∀ p, p ∈ group → stat fs p = Some size.
Proof.
  intros (files & _ & ->)%scan_Ok group Hg.
  destruct (scan_files_spec self fs files use_byte_comparison) as [Hok _].
  rewrite Forall_forall in Hok. destruct (Hok _ Hg) as (Hlen & (s & Hsub) & _).
  split; [lia|]. exists s. intros p Hp.
  eapply elem_of_sublist in Hp; [|exact Hsub].
  by apply list_elem_of_filter in Hp as [? _].
Qed.

Lemma scan_groups_same_size_witness :
  let group := [["d"; "a.txt"]; ["d"; "b.txt"]]%string in
  @scan toy_runtime default_scanner hello_fs [["d"%string]] false = Ok [group]
  ∧ 2 ≤ length group
  ∧ ∃ size, ∀ p, p ∈ group → stat hello_fs p = Some size.
Proof.
  split; [reflexivity|].
  apply (@scan_groups_same_size toy_runtime default_scanner hello_fs
           [["d"%string]] false [[["d"; "a.txt"]; ["d"; "b.txt"]]%string]).
  - reflexivity.
  - apply list_elem_of_here.
Defined.

(** C10. For every list of collected files, repeated paths or not, and for
    both strategies, no path is in two groups of the result; under the byte
    strategy no path even occurs twice in the result.  The groups that
    [scan] returns are those of the files it collected. *)
Theorem scan_groups_disjoint `{Runtime} (self : DuplicateScanner) (fs : filesystem)
    (files : list Path) (use_byte_comparison : bool) (i j : nat)
    (group1 group2 : list Path) (p : Path) :
  scan_files self fs files use_byte_comparison !! i = Some group1 →
  scan_files self fs files use_byte_comparison !! j = Some group2 →
  p ∈ group1 → p ∈ group2 →
  i = j
  ∧ NoDup (concat (scan_files self fs files true))
  ∧ ∀ paths, scan self fs paths use_byte_comparison
             = (collected ←ᵣ _collect_files self fs paths;
                Ok (scan_files self fs collected use_byte_comparison)).
Proof.
  intros Hi Hj Hp1 Hp2.
  destruct (scan_files_spec self fs files use_byte_comparison) as (_ & Hdis & _).
  destruct (scan_files_spec self fs files true) as (_ & _ & Hnd).
  split_and!; [by eapply Hdis | by apply Hnd | done].
Qed.

Lemma scan_groups_disjoint_witness :
  let a := ["d"; "a.txt"]%string in
  let b := ["d"; "b.txt"]%string in
  @scan_files toy_runtime default_scanner hello_fs [a; b; a] false !! 0 = Some [a; b; a]
  ∧ 0 = 0
  ∧ NoDup (concat (@scan_files toy_runtime default_scanner hello_fs [a; b; a] true)).
Proof.
  split; [reflexivity|].
  destruct (@scan_groups_disjoint toy_runtime default_scanner hello_fs
              [["d"; "a.txt"]; ["d"; "b.txt"]; ["d"; "a.txt"]]%string false 0 0
              [["d"; "a.txt"]; ["d"; "b.txt"]; ["d"; "a.txt"]]%string
              [["d"; "a.txt"]; ["d"; "b.txt"]; ["d"; "a.txt"]]%string
              ["d"; "a.txt"]%string) as (Hij & Hnd & _).
  - reflexivity.
  - reflexivity.
  - apply list_elem_of_here.
  - apply list_elem_of_here.
  - split; [exact Hij | exact Hnd].
Defined.



(** ** Agreement of the two strategies *)

Lemma filter_ext_in {A} (P Q : A → Prop) `{∀ x, Decision (P x)} `{∀ x, Decision (Q x)}
    (l : list A) :
  (∀ x, x ∈ l → P x ↔ Q x) → filter P l = filter Q l.
Proof.
  induction l as [|x l IH]; intros Hext; [done|].
  assert (filter P l = filter Q l) as IH' by (apply IH; eauto using list_elem_of_further).
  destruct (decide (P x)) as [HP|HP].
  - rewrite !filter_cons_True; [by rewrite IH' | by apply Hext; [apply list_elem_of_here|] | done].
  - rewrite !filter_cons_False; [done | | done].
    intros HQ. apply HP, Hext; [apply list_elem_of_here | done].
Qed.

Lemma filter_none {A} (P : A → Prop) `{∀ x, Decision (P x)} (l : list A) :
  (∀ x, x ∈ l → ¬ P x) → filter P l = [].
Proof.
  induction l as [|x l IH]; intros Hnone; [done|].
  rewrite filter_cons_False by (apply Hnone, list_elem_of_here).
  apply IH. eauto using list_elem_of_further.
Qed.

Lemma filter_all {A} (P : A → Prop) `{∀ x, Decision (P x)} (l : list A) :
  (∀ x, x ∈ l → P x) → filter P l = l.
Proof.
  induction l as [|x l IH]; intros Hall; [done|].
  rewrite filter_cons_True by (apply Hall, list_elem_of_here).
  f_equal. apply IH. eauto using list_elem_of_further.
Qed.

Section group_into_order.
Context {K V : Type} `{EqDecision K} (key : V → option K).
Implicit Types (k : K) (d : list (K * list V)) (xs : list V).

Lemma dict_append_fresh k v d : k ∉ d.*1 → dict_append k v d = d ++ [(k, [v])].
Proof.
  induction d as [|[k' vs] d IH]; intros Hk; [done|].
  rewrite fmap_cons in Hk. apply not_elem_of_cons in Hk as [Hne Hk].
  cbn [dict_append]. rewrite decide_False by done. by rewrite IH.
Qed.

Lemma extend_with_nil d : extend_with key [] <$> d = d.
Proof.
  induction d as [|[k vs] d IH]; [done|].
  rewrite fmap_cons, IH. unfold extend_with. simpl. by rewrite app_nil_r.
Qed.

Lemma extend_with_other x xs d :
  key x ∉ Some <$> d.*1 → extend_with key (x :: xs) <$> d = extend_with key xs <$> d.
Proof.
  induction d as [|[k vs] d IH]; intros Hx; [done|].
  rewrite !fmap_cons in Hx. apply not_elem_of_cons in Hx as [Hne Hx].
  rewrite !fmap_cons, IH by done. unfold extend_with at 1 3. simpl.
  by rewrite filter_cons_False.
Qed.

Lemma extend_with_append k x xs d :
  NoDup d.*1 → k ∈ d.*1 → key x = Some k →
  extend_with key xs <$> dict_append k x d = extend_with key (x :: xs) <$> d.
Proof.
  intros Hnd Hin Hx. induction d as [|[k' vs] d IH].
  { by apply elem_of_nil in Hin. }
  rewrite fmap_cons in Hnd, Hin. apply NoDup_cons in Hnd as [Hk' Hnd].
  cbn [dict_append]. destruct (decide (k = k')) as [<-|Hne].
  - rewrite !fmap_cons. rewrite extend_with_other.
    + unfold extend_with. simpl. rewrite filter_cons_True by done.
      by rewrite <- app_assoc.
    + rewrite Hx. intros (k'' & [= <-] & ?)%list_elem_of_fmap. done.
  - apply elem_of_cons in Hin as [?|Hin]; [done|].
    rewrite !fmap_cons, IH by done. unfold extend_with at 1 3. simpl.
    rewrite filter_cons_False; [done|]. congruence.
Qed.

Lemma group_into_step x xs d :
  group_into key (x :: xs) d
  = group_into key xs (match key x with Some k => dict_append k x d | None => d end).
Proof. reflexivity. Qed.

(** Grouping into a dictionary that has entries: the entries receive the
    inputs of their keys, and the inputs of other keys are grouped after
    them as if from scratch. *)
Lemma group_into_extend n xs d :
  length xs ≤ n → NoDup d.*1 →
  group_into key xs d
  = (extend_with key xs <$> d)
    ++ group_into key (filter (fun x => key x ∉ Some <$> d.*1) xs) [].
Proof.
  revert xs d. induction n as [|n IH]; intros [|x xs] d Hlen Hnd;
    simpl in Hlen; try lia.
  1,2: by rewrite extend_with_nil, app_nil_r.
  rewrite group_into_step. destruct (key x) as [k|] eqn:Hx.
  - destruct (decide (k ∈ d.*1)) as [Hin|Hnin].
    + rewrite IH by (try apply dict_append_NoDup; (done || lia)).
      rewrite dict_append_keys, decide_True by done.
      rewrite extend_with_append by done.
      rewrite (filter_cons_False _ x); [done|].
      intros Hn. apply Hn. rewrite Hx. by apply list_elem_of_fmap_2.
    + assert (key x ∉ Some <$> d.*1) as Hfresh.
      { rewrite Hx. by intros (k' & [= <-] & ?)%list_elem_of_fmap. }
      rewrite dict_append_fresh by done.
      rewrite (filter_cons_True _ x) by done.
      rewrite group_into_step, Hx. cbn [dict_append].
      rewrite extend_with_other by done.
      assert (NoDup (d ++ [(k, [x])]).*1) as Hnd'.
      { rewrite fmap_app. apply NoDup_app. split_and!;
          [done | by intros ? ? ->%list_elem_of_singleton | apply NoDup_singleton]. }
      rewrite (IH xs) by (done || lia).
      rewrite (IH (filter _ xs) [(k, [x])]).
      2:{ etrans; [apply length_filter|]. lia. }
      2:{ apply NoDup_singleton. }
      rewrite !fmap_app, <- app_assoc. f_equal. simpl. f_equal.
      * unfold extend_with. simpl. f_equal. f_equal. symmetry.
        apply list_filter_filter_l. intros y Hy.
        rewrite Hy. by intros (k' & [= <-] & ?)%list_elem_of_fmap.
      * f_equal. rewrite list_filter_filter. apply list_filter_iff. intros y.
        rewrite not_elem_of_app. simpl. tauto.
  - rewrite (IH xs) by (done || lia).
    assert (key x ∉ Some <$> d.*1) as Hfresh.
    { rewrite Hx. by intros (k' & [=] & ?)%list_elem_of_fmap. }
    rewrite extend_with_other by done.
    rewrite (filter_cons_True _ x) by done.
    by rewrite (group_into_step x), Hx.
Qed.

(** Grouping from scratch: the first input opens the first entry, which
    takes all the inputs of its key; the others are grouped after it. *)
Lemma group_into_cons x xs :
  group_into key (x :: xs) []
  = match key x with
    | None => group_into key xs []
    | Some k =>
        (k, x :: filter (fun y => key y = Some k) xs)
        :: group_into key (filter (fun y => key y ≠ Some k) xs) []
    end.
Proof.
  rewrite group_into_step. destruct (key x) as [k|]; [|done].
  cbn [dict_append].
  rewrite (group_into_extend (length xs)) by (done || apply NoDup_singleton).
  simpl. f_equal. f_equal. apply list_filter_iff. intros y.
  by rewrite list_elem_of_singleton.
Qed.
End group_into_order.

(** *** Reading in chunks *)

Lemma read_chunk n f chunk rest :
  read n f = (chunk, rest) →
  chunk ++ rest = f ∧ (chunk = [] → n ≠ 0%Z → f = []).
Proof.
  unfold read. destruct (Z.ltb_spec n 0); intros [= <- <-].
  - by rewrite app_nil_r.
  - split; [apply take_drop|]. intros Ht Hn.
    apply take_nil_inv in Ht as [?|?]; [lia | done].
Qed.

Lemma read_zero f : read 0 f = ([], f).
Proof. unfold read. simpl. by rewrite take_0, drop_0. Qed.

(** With a chunk size other than zero the whole file is fed to the hash
    object. *)
Lemma hash_chunks_nonzero n f h :
  n ≠ 0%Z → hash_chunks n f h = HashObj (h_alg h) (h_fed h ++ f).
Proof.
  intros Hn. funelim (hash_chunks n f h).
  - pose proof (read_chunk _ _ _ _ e) as [_ Hf]. rewrite (Hf eq_refl Hn).
    rewrite app_nil_r. by destruct h.
  - rewrite (H Hn). pose proof (read_chunk _ _ _ _ e) as [Hf _].
    rewrite <- Hf. unfold update. simpl. by rewrite <- app_assoc.
Qed.

(** With a chunk size of zero the first read returns nothing and the loop
    stops: nothing is fed. *)
Lemma hash_chunks_zero f h : hash_chunks 0 f h = h.
Proof.
  funelim (hash_chunks 0 f h); [done|].
  pose proof e as e'. rewrite read_zero in e'. discriminate.
Qed.

(** With a chunk size other than zero the comparison is equality of the
    contents. *)
Lemma compare_chunks_nonzero n f1 f2 :
  n ≠ 0%Z → compare_chunks n f1 f2 = bool_decide (f1 = f2).
Proof.
  intros Hn. funelim (compare_chunks n f1 f2).
  - symmetry. apply bool_decide_eq_false. intros Hf.
    match goal with Hne : _ ≠ _ |- _ => apply Hne end.
    pose proof e as e'. rewrite Hf, e0 in e'. congruence.
  - destruct (decide ([] = chunk2)) as [<-|Hne];
      [|by match goal with Hnn : ¬ _ ≠ _ |- _ => destruct Hnn end].
    pose proof (read_chunk _ _ _ _ e) as [_ Hf1].
    pose proof (read_chunk _ _ _ _ e0) as [_ Hf2].
    rewrite (Hf1 eq_refl Hn), (Hf2 eq_refl Hn).
    symmetry. by apply bool_decide_eq_true.
  - rewrite (H Hn).
    destruct (decide (b :: l = chunk2)) as [<-|Hne];
      [|by match goal with Hnn : ¬ _ ≠ _ |- _ => destruct Hnn end].
    pose proof (read_chunk _ _ _ _ e) as [Hf1 _].
    pose proof (read_chunk _ _ _ _ e0) as [Hf2 _].
    rewrite <- Hf1, <- Hf2. apply bool_decide_ext.
    split; [by intros -> | apply app_inv_head].
Qed.

(** With a chunk size of zero both first reads return nothing: the files
    are declared identical without a byte being compared. *)
Lemma compare_chunks_zero f1 f2 : compare_chunks 0 f1 f2 = true.
Proof.
  funelim (compare_chunks 0 f1 f2); [|done|done].
  pose proof e as e'. pose proof e0 as e0'.
  rewrite read_zero in e', e0'.
  match goal with Hne : _ ≠ _ |- _ => destruct Hne end. congruence.
Qed.

(** *** The byte strategy computes the hash groups *)

Section agreement.
Context `{Runtime} (self : DuplicateScanner) (fs : filesystem).
Implicit Types (files group : list Path) (p : Path) (processed : gset Path).

Lemma _calculate_file_hash_Some p h :
  _calculate_file_hash self fs p = Some h →
  ∃ data, open_rb fs p = Some data
          ∧ h = digest (hash_algorithm self)
                  (if decide (chunk_size self = 0%Z) then [] else data).
Proof.
  unfold _calculate_file_hash. destruct (open_rb fs p) as [data|]; [|done].
  simpl. intros [= <-]. exists data. split; [done|]. unfold hexdigest.
  case_decide as Hc.
  - by rewrite Hc, hash_chunks_zero.
  - by rewrite hash_chunks_nonzero.
Qed.

(** Among files free of collisions, two files compare equal exactly when
    both can be hashed and have the same digest. *)
Lemma identical_iff_same_hash files f1 f2 :
  collision_free self fs files → f1 ∈ files → f2 ∈ files →
  _files_are_identical self fs f1 f2 = Some true
  ↔ ∃ h, _calculate_file_hash self fs f1 = Some h
         ∧ _calculate_file_hash self fs f2 = Some h.
Proof.
  intros Hfree Hf1 Hf2. split.
  - unfold _files_are_identical, _calculate_file_hash.
    destruct (open_rb fs f1) as [d1|]; [|done].
    destruct (open_rb fs f2) as [d2|]; [|done]. simpl.
    intros [= Hcmp]. eexists. split; [reflexivity|]. do 2 f_equal.
    destruct (decide (chunk_size self = 0%Z)) as [Hc|Hc].
    + by rewrite Hc, !hash_chunks_zero.
    + rewrite compare_chunks_nonzero in Hcmp by done.
      by apply bool_decide_eq_true in Hcmp as ->.
  - intros (h & Hh1 & Hh2). pose proof (Hfree _ _ _ Hf1 Hf2 Hh1 Hh2) as Heq.
    apply _calculate_file_hash_Some in Hh1 as (d1 & Hd1 & _).
    unfold _files_are_identical. rewrite <- Heq, Hd1. simpl. f_equal.
    destruct (decide (chunk_size self = 0%Z)) as [Hc|Hc].
    + by rewrite Hc, compare_chunks_zero.
    + rewrite compare_chunks_nonzero by done. by apply bool_decide_eq_true.
Qed.

(** Over candidates without repetition, the inner loop keeps those not yet
    matched that compare equal to the reference. *)
Lemma byte_candidates_filter reference candidates group processed :
  NoDup candidates →
  byte_candidates self fs reference candidates group processed
  = let matched :=
      filter (fun c => (c ∉ processed)
                       ∧ _files_are_identical self fs reference c = Some true)
             candidates in
    (group ++ matched, list_to_set matched ∪ processed).
Proof.
  revert group processed.
  induction candidates as [|c rest IH]; intros group processed Hnd; cbn zeta.
  { simpl. rewrite app_nil_r. f_equal. set_solver. }
  apply NoDup_cons in Hnd as [Hc Hnd]. cbn [byte_candidates].
  destruct (decide (c ∈ processed)) as [Hin|Hin].
  { rewrite filter_cons_False by (by intros [? _]). by apply IH. }
  destruct (_files_are_identical self fs reference c) as [[]|] eqn:Hid.
  2,3: rewrite filter_cons_False by (intros [_ ?]; congruence); by apply IH.
  rewrite filter_cons_True by done. rewrite IH by done. cbn zeta.
  assert (filter (fun c0 => (c0 ∉ {[c]} ∪ processed)
                            ∧ _files_are_identical self fs reference c0 = Some true) rest
          = filter (fun c0 => (c0 ∉ processed)
                              ∧ _files_are_identical self fs reference c0 = Some true) rest)
    as ->.
  { apply filter_ext_in. intros c0 Hc0. split; intros [? ?]; split; try done.
    - set_solver.
    - assert (c0 ≠ c) by (by intros ->). set_solver. }
  rewrite <- app_assoc. f_equal. simpl. set_solver.
Qed.


Lemma _find_duplicates_hash_cons r files :
  _find_duplicates_hash self fs (r :: files)
  = match _calculate_file_hash self fs r with
    | None => _find_duplicates_hash self fs files
    | Some h =>
        let same := filter (fun p => _calculate_file_hash self fs p = Some h) files in
        (if decide (1 < length (r :: same)) then [r :: same] else [])
        ++ _find_duplicates_hash self fs
             (filter (fun p => _calculate_file_hash self fs p ≠ Some h) files)
    end.
Proof.
  unfold _find_duplicates_hash. cbv zeta. rewrite group_into_cons.
  destruct (_calculate_file_hash self fs r) as [h|]; [|done].
  rewrite fmap_cons. cbn [snd]. case_decide.
  - by rewrite filter_cons_True.
  - by rewrite filter_cons_False.
Qed.

Lemma byte_references_hash all files duplicate_groups processed :
  collision_free self fs all → (∀ p, p ∈ files → p ∈ all) → NoDup files →
  byte_references self fs files duplicate_groups processed
  = duplicate_groups
    ++ _find_duplicates_hash self fs (filter (fun p => p ∉ processed) files).
Proof.
  intros Hfree. revert duplicate_groups processed.
  induction files as [|r rest IH]; intros groups processed Hall Hnd.
  { simpl. by rewrite app_nil_r. }
  apply NoDup_cons in Hnd as [Hr Hnd]. cbn [byte_references].
  assert (∀ p, p ∈ rest → p ∈ all) as Hall' by eauto using list_elem_of_further.
  destruct (decide (r ∈ processed)) as [Hin|Hin].
  { rewrite filter_cons_False by (intros Hn; by apply Hn). by apply IH. }
  rewrite filter_cons_True by done.
  rewrite byte_candidates_filter by done. cbv beta iota zeta.
  set (F := filter (fun p => p ∉ processed) rest).
  set (M := filter (fun c => (c ∉ {[r]} ∪ processed) ∧ _) rest).
  rewrite IH by done.
  rewrite _find_duplicates_hash_cons.
  assert (r ∈ all) as Hra by (apply Hall, list_elem_of_here).
  assert (∀ c, c ∈ rest → c ≠ r) as Hne by (by intros c ? ->).
  change ([r] ++ M) with (r :: M).
  destruct (_calculate_file_hash self fs r) as [h|] eqn:Hh.
  - assert (M = filter (fun p => _calculate_file_hash self fs p = Some h) F) as HM.
    { unfold M, F. rewrite list_filter_filter. apply filter_ext_in. intros c Hc.
      rewrite (identical_iff_same_hash all r c) by eauto. split.
      - intros [Hn (h' & Hr' & Hc')]. split; [congruence | set_solver].
      - intros [Hc' Hn]. specialize (Hne c Hc). split; [set_solver | by exists h]. }
    assert (filter (fun p => p ∉ list_to_set M ∪ ({[r]} ∪ processed)) rest
            = filter (fun p => _calculate_file_hash self fs p ≠ Some h) F) as HF.
    { unfold F at 1. rewrite list_filter_filter. apply filter_ext_in. intros c Hc.
      specialize (Hne c Hc).
      rewrite not_elem_of_union, elem_of_list_to_set, HM.
      unfold F. rewrite !list_elem_of_filter. split.
      - intros [Hn1 Hn2]. split; [|set_solver]. intros Hhc. apply Hn1.
        split; [done|]. split; [set_solver | done].
      - intros [Hhc Hnp]. split; [by intros [? _] | set_solver]. }
    rewrite HF, <- HM. cbv zeta. case_decide; [by rewrite <- app_assoc | done].
  - assert (M = []) as ->.
    { apply filter_none. intros c Hc [_ Hid].
      apply (identical_iff_same_hash all r c) in Hid as (h & ? & _); eauto.
      congruence. }
    assert (filter (fun p => p ∉ list_to_set [] ∪ ({[r]} ∪ processed)) rest = F) as ->.
    { apply filter_ext_in. intros c Hc. specialize (Hne c Hc). set_solver. }
    done.
Qed.



End agreement.








(** ** Worked examples *)

Section examples.
#[local] Existing Instance toy_runtime.
Open Scope string_scope.

(** The end-to-end scenario: one group [[a.txt, b.txt]], [c.txt] in none;
    a live purge removes [b.txt] and keeps [a.txt]. *)
Example scan_hello :
  scan default_scanner hello_fs [["d"]] false = Ok [[["d"; "a.txt"]; ["d"; "b.txt"]]].
Proof. reflexivity. Qed.

Example purge_hello :
  let st := purge_duplicates hello_fs [[["d"; "a.txt"]; ["d"; "b.txt"]]] false in
  removed_count st = 1%Z
  ∧ is_file (disk st) ["d"; "a.txt"] = Some true
  ∧ path_exists (disk st) ["d"; "b.txt"] = false.
Proof. vm_compute. done. Qed.

(** A recursive scan goes into the subdirectory, leaves the symbolic link
    out, and the file that cannot be opened is in no group; two empty files
    are a group under both strategies. *)
Example scan_tree_hash :
  scan default_scanner tree_fs [["r"]] false
  = Ok [ [["r"; "x.bin"]; ["r"; "sub"; "y.bin"]; ["r"; "locked.bin"]];
         [["r"; "sub"; "empty1"]; ["r"; "sub"; "empty2"]] ].
Proof. reflexivity. Qed.

Example scan_tree_bytes :
  scan default_scanner tree_fs [["r"]] true
  = scan default_scanner tree_fs [["r"]] false.
Proof. reflexivity. Qed.

(** A non-recursive scan sees the direct children only. *)
Example scan_tree_flat :
  scan (Scanner "sha256" 0 None false false 8192) tree_fs [["r"]] false
  = Ok [ [["r"; "x.bin"]; ["r"; "locked.bin"]] ].
Proof. reflexivity. Qed.

(** With [follow_symlinks] the link takes part like a regular file. *)
Example scan_tree_links :
  scan (Scanner "sha256" 0 None false true 8192) tree_fs [["r"]] false
  = Ok [ [["r"; "x.bin"]; ["r"; "link.bin"]; ["r"; "locked.bin"]] ].
Proof. reflexivity. Qed.

(** A recursion limit of one call: the subdirectory is one call too deep
    and the scan raises. *)
Example scan_tree_too_deep :
  @scan {| digest := digest; recursion_limit := 1 |}
    default_scanner tree_fs [["r"]] false
  = Raise RecursionError.
Proof. reflexivity. Qed.

(** A live purge goes on after the file that cannot be unlinked. *)
Example purge_tree :
  let st := purge_duplicates tree_fs
              [ [["r"; "x.bin"]; ["r"; "sub"; "y.bin"]; ["r"; "locked.bin"]];
                [["r"; "sub"; "empty1"]; ["r"; "sub"; "empty2"]] ] false in
  removed_count st = 2%Z
  ∧ printed st = [ Removed ["r"; "sub"; "y.bin"];
                   ErrorRemoving ["r"; "locked.bin"];
                   Removed ["r"; "sub"; "empty2"] ]
  ∧ iterdir (disk st) ["r"; "sub"] = Some [["r"; "sub"; "empty1"]].
Proof. vm_compute. done. Qed.

(** With a chunk size of zero nothing is read: files of one size and
    different contents are taken for duplicates by both strategies. *)
Example scan_chunk_size_zero :
  scan (Scanner "sha256" 0 None true false 0) hello_fs [["d"]] false
  = Ok [[["d"; "a.txt"]; ["d"; "b.txt"]; ["d"; "c.txt"]]]
  ∧ scan (Scanner "sha256" 0 None true false 0) hello_fs [["d"]] true
    = Ok [[["d"; "a.txt"]; ["d"; "b.txt"]; ["d"; "c.txt"]]].
Proof. split; reflexivity. Qed.

End examples.

(** * Further properties *)

(** ** Reading in chunks *)

Lemma _calculate_file_hash_nonzero `{Runtime} (self : DuplicateScanner)
    (fs : filesystem) (p : Path) :
  chunk_size self ≠ 0%Z →
  _calculate_file_hash self fs p = digest (hash_algorithm self) <$> open_rb fs p.
Proof.
  intros Hn. unfold _calculate_file_hash. destruct (open_rb fs p) as [data|]; [|done].
  simpl. by rewrite hash_chunks_nonzero.
Qed.

Lemma _files_are_identical_nonzero (self : DuplicateScanner) (fs : filesystem)
    (file1 file2 : Path) :
  chunk_size self ≠ 0%Z →
  (_files_are_identical self fs file1 file2 = Some true
   ↔ ∃ data, open_rb fs file1 = Some data ∧ open_rb fs file2 = Some data)
  ∧ (_files_are_identical self fs file1 file2 = None
     ↔ open_rb fs file1 = None ∨ open_rb fs file2 = None).
Proof.
  intros Hn. unfold _files_are_identical.
  destruct (open_rb fs file1) as [f1|], (open_rb fs file2) as [f2|]; simpl;
    try rewrite compare_chunks_nonzero by done.
  - split.
    + split.
      * intros [= Heq%bool_decide_eq_true]. subst. eauto.
      * intros (data & [= ->] & [= ->]). by rewrite bool_decide_eq_true_2.
    + split; [done | by intros [|]].
  - split; [split; [done | by intros (? & _ & ?)] | split; auto].
  - split; [split; [done | by intros (? & ? & _)] | split; auto].
  - split; [split; [done | by intros (? & ? & _)] | split; auto].
Qed.





(** X3. With a chunk size of zero nothing is ever read: any two files that
    can be opened compare as identical and have the same digest, whatever
    they hold. *)
Theorem chunk_size_zero_conflates `{Runtime} (self : DuplicateScanner) (fs : filesystem)
    (file1 file2 : Path) :
  chunk_size self = 0%Z →
  is_Some (open_rb fs file1) → is_Some (open_rb fs file2) →
  _files_are_identical self fs file1 file2 = Some true
  ∧ _calculate_file_hash self fs file1 = Some (digest (hash_algorithm self) [])
  ∧ _calculate_file_hash self fs file2 = Some (digest (hash_algorithm self) []).
Proof.
  intros Hz [f1 H1] [f2 H2]. unfold _files_are_identical, _calculate_file_hash.
  rewrite H1, H2, Hz. simpl. rewrite compare_chunks_zero, !hash_chunks_zero. done.
Qed.

Lemma chunk_size_zero_conflates_witness :
  _files_are_identical (Scanner "sha256" 0 None true false 0) hello_fs
    ["d"; "a.txt"]%string ["d"; "c.txt"]%string = Some true
  ∧ open_rb hello_fs ["d"; "a.txt"]%string ≠ open_rb hello_fs ["d"; "c.txt"]%string.
Proof.
  split; [|by vm_compute].
  apply (@chunk_size_zero_conflates toy_runtime (Scanner "sha256" 0 None true false 0) hello_fs);
    [done | by vm_compute; eexists | by vm_compute; eexists ].
Defined.

(** ** What a live purge leaves behind *)

Section purge_effects.
Implicit Types (st : purge_state) (fs : filesystem) (p q : Path).

Lemma purge_groups_flat dry_run st (groups : list (list Path)) :
  foldl (purge_group dry_run) st groups
  = foldl (purge_file dry_run) st (concat (map files_to_remove groups)).
Proof.
  revert st. induction groups as [|g groups IH]; intros st; [done|].
  simpl. rewrite foldl_app. apply IH.
Qed.

Lemma unlink_lookup_other fs p fs' q :
  unlink fs p = Some fs' → q ≠ p →
  fs' !! q = if decide (q = removelast p) then remove_name (name p) <$> fs !! q else fs !! q.
Proof.
  unfold unlink. intros Hu Hq.
  destruct (fs !! p) as [e|]; [|done].
  assert (fs' = delete p (alter (remove_name (name p)) (removelast p) fs)) as ->.
  { destruct (kind e), (unlink_ok e); congruence. }
  rewrite lookup_delete_ne by done.
  destruct (decide (q = removelast p)) as [->|Hne%not_eq_sym].
  - by rewrite lookup_alter_eq.
  - by rewrite lookup_alter_ne.
Qed.


(** A path that cannot be unlinked still cannot be once another was. *)
Lemma unlink_None_preserved fs p fs' q :
  unlink fs q = None → unlink fs p = Some fs' → unlink fs' q = None.
Proof.
  intros Hq Hp. destruct (decide (q = p)) as [->|Hne].
  - unfold unlink. by destruct (unlink_Some _ _ _ Hp) as (-> & _).
  - revert Hq. unfold unlink. rewrite (unlink_lookup_other _ _ _ _ Hp Hne).
    destruct (decide (q = removelast p)) as [_|].
    + destruct (fs !! q) as [e|]; [|done]. simpl.
      unfold remove_name. destruct (kind e) eqn:Hk; simpl; rewrite ?Hk; try done.
      all: by destruct (unlink_ok e).
    + destruct (fs !! q) as [e|]; [|done].
      by destruct (kind e), (unlink_ok e).
Qed.


Lemma purge_files_unlink_None st ps q :
  unlink (disk st) q = None → unlink (disk (foldl (purge_file false) st ps)) q = None.
Proof.
  revert st. induction ps as [|p ps IH]; intros st Hq; [done|].
  cbn [foldl]. apply IH. unfold purge_file.
  destruct (unlink (disk st) p) as [fs'|] eqn:Hu; [|done].
  simpl. by apply (unlink_None_preserved _ _ _ _ Hq Hu).
Qed.

Lemma purge_files_gone st ps :
  Forall (fun p => unlink (disk (foldl (purge_file false) st ps)) p = None) ps.
Proof.
  revert st. induction ps as [|p ps IH]; intros st; [done|].
  cbn [foldl]. constructor; [|apply IH].
  apply purge_files_unlink_None. unfold purge_file.
  destruct (unlink (disk st) p) as [fs'|] eqn:Hu; [|done].
  simpl. unfold unlink. by destruct (unlink_Some _ _ _ Hu) as (-> & _).
Qed.

Lemma purge_files_all_fail st ps :
  Forall (fun p => unlink (disk st) p = None) ps →
  foldl (purge_file false) st ps
  = PurgeState (removed_count st) (printed st ++ map ErrorRemoving ps) (disk st).
Proof.
  revert st. induction ps as [|p ps IH]; intros st Hall.
  - simpl. rewrite app_nil_r. by destruct st.
  - apply Forall_cons in Hall as [Hp Hall]. cbn [foldl].
    rewrite IH; unfold purge_file; rewrite Hp; [|done]. simpl.
    by rewrite <- app_assoc.
Qed.







(** X5. Purging the same groups a second time removes nothing: every
    attempt fails, the count returned is zero and the filesystem is left as
    the first purge left it. *)
Theorem purge_twice_removes_nothing fs (duplicate_groups : list (list Path)) :
  let st1 := purge_duplicates fs duplicate_groups false in
  let st2 := purge_duplicates (disk st1) duplicate_groups false in
  removed_count st2 = 0%Z
  ∧ disk st2 = disk st1
  ∧ printed st2 = ErrorRemoving <$> concat (map (drop 1) duplicate_groups).
Proof.
  cbv zeta. unfold purge_duplicates. rewrite !purge_groups_flat.
  rewrite (purge_files_all_fail (PurgeState 0 [] _)); [done|].
  apply purge_files_gone.
Qed.
End purge_effects.

(** ** A purge after a scan *)

Section scan_then_purge.
Context `{Runtime} (self : DuplicateScanner) (fs : filesystem).



End scan_then_purge.


(** Without either condition the only copy can go: a file given twice as a
    root is grouped with itself by the hash strategy, and the purge removes
    it. *)
Example purge_after_scan_repeated_root :
  let a := ["d"; "a.txt"]%string in
  @scan toy_runtime default_scanner hello_fs [a; a] false = Ok [[a; a]]
  ∧ open_rb (disk (purge_duplicates hello_fs [[a; a]] false)) a = None.
Proof. split; reflexivity. Qed.

(** ** Grouping by size *)

Section grouping.
Context {K V : Type} `{EqDecision K} (key : V → option K).
Implicit Types (d : list (K * list V)) (xs : list V).

Lemma dict_append_concat k v d : concat (dict_append k v d).*2 ≡ₚ concat d.*2 ++ [v].
Proof.
  induction d as [|[k' vs] d IH]; [done|].
  cbn [dict_append]. destruct (decide (k = k')) as [->|Hne].
  - rewrite !fmap_cons. simpl. by rewrite <- !app_assoc, (Permutation_app_comm [v]).
  - rewrite !fmap_cons. simpl. by rewrite IH, app_assoc.
Qed.

Lemma group_into_concat xs d :
  concat (group_into key xs d).*2 ≡ₚ concat d.*2 ++ filter (fun x => is_Some (key x)) xs.
Proof.
  revert d. induction xs as [|x xs IH]; intros d.
  - simpl. by rewrite app_nil_r.
  - rewrite group_into_step, IH. destruct (key x) as [k|] eqn:Hk.
    + rewrite filter_cons_True by (rewrite Hk; eauto).
      by rewrite dict_append_concat, <- app_assoc.
    + rewrite filter_cons_False; [done|]. rewrite Hk. by intros [? ?].
Qed.

Lemma dict_append_nonempty k v d :
  Forall (fun kv => kv.2 ≠ []) d → Forall (fun kv => kv.2 ≠ []) (dict_append k v d).
Proof.
  induction 1 as [|[k' vs] d Hvs Hd IH]; cbn [dict_append].
  - by repeat constructor.
  - destruct (decide (k = k')); constructor; try done.
    simpl. by destruct vs.
Qed.

Lemma group_into_nonempty xs d :
  Forall (fun kv => kv.2 ≠ []) d → Forall (fun kv => kv.2 ≠ []) (group_into key xs d).
Proof.
  revert d. induction xs as [|x xs IH]; intros d Hd; [done|].
  rewrite group_into_step. apply IH. destruct (key x); [|done].
  by apply dict_append_nonempty.
Qed.

Lemma dict_get_present k d : dict_get k d ≠ [] → (k, dict_get k d) ∈ d.
Proof.
  induction d as [|[k' vs] d IH]; [done|].
  cbn [dict_get]. destruct (decide (k = k')) as [->|Hne]; intros Hget.
  - by left.
  - right. by apply IH.
Qed.

(** The entries of a dictionary built by the grouping loop are exactly
    the non-empty classes of its inputs. *)
Lemma group_into_classes k vs xs :
  (k, vs) ∈ group_into key xs [] ↔ vs ≠ [] ∧ vs = filter (fun x => key x = Some k) xs.
Proof.
  split.
  - intros Hin. split; [|by apply group_into_elem_of].
    pose proof (group_into_nonempty xs [] (Forall_nil_2 _)) as Hall.
    rewrite Forall_forall in Hall. by apply (Hall _ Hin).
  - intros [Hne ->].
    pose proof (dict_get_group_into key k xs []) as Hget. simpl in Hget.
    rewrite <- Hget. apply dict_get_present. by rewrite Hget.
Qed.
End grouping.

(** X7. [_group_by_size] partitions the files whose size can be read: no
    size is a key twice, the entries are exactly the non-empty classes of
    files of one size, members in the order of the input, and together they
    hold every such file once per occurrence. *)
Theorem group_by_size_partition (fs : filesystem) (files : list Path) :
  NoDup (_group_by_size fs files).*1
  ∧ (∀ size file_list,
       (size, file_list) ∈ _group_by_size fs files
       ↔ file_list ≠ [] ∧ file_list = filter (fun p => stat fs p = Some size) files)
  ∧ concat (_group_by_size fs files).*2 ≡ₚ filter (fun p => is_Some (stat fs p)) files.
Proof.
  split_and!.
  - apply group_into_NoDup. constructor.
  - intros size file_list. apply group_into_classes.
  - unfold _group_by_size. by rewrite group_into_concat.
Qed.

(** ** What the strategies group *)

Section strategy_groups.
Context `{Runtime} (self : DuplicateScanner) (fs : filesystem).
Implicit Types (files group : list Path) (p : Path).

Lemma find_duplicates_hash_groups files group :
  group ∈ _find_duplicates_hash self fs files
  ↔ 1 < length group
    ∧ ∃ h, group = filter (fun p => _calculate_file_hash self fs p = Some h) files.
Proof.
  split.
  - intros Hin. destruct (_find_duplicates_hash_spec self fs files) as [Hall _].
    rewrite Forall_forall in Hall. by apply Hall.
  - intros (Hlen & h & ->). unfold _find_duplicates_hash.
    apply list_elem_of_filter. split; [done|].
    apply list_elem_of_fmap.
    exists (h, filter (fun p => _calculate_file_hash self fs p = Some h) files).
    split; [done|]. apply group_into_classes. split; [|done].
    intros Hnil. rewrite Hnil in Hlen. simpl in Hlen. lia.
Qed.

Lemma scan_files_hash_groups files group :
  group ∈ scan_files self fs files false
  ↔ 1 < length group
    ∧ ∃ size h,
        group = filter (fun p => stat fs p = Some size
                                 ∧ _calculate_file_hash self fs p = Some h) files.
Proof.
  rewrite scan_files_concat, elem_of_concat. split.
  - intros (l & Hgroup & Hl). apply list_elem_of_fmap in Hl as ([size fl] & -> & Hitem).
    apply size_group_elem_of in Hitem as ->. simpl in Hgroup.
    unfold partition_groups in Hgroup.
    destruct (decide _); [by apply elem_of_nil in Hgroup|].
    apply find_duplicates_hash_groups in Hgroup as (Hlen & h & ->).
    split; [done|]. exists size, h. rewrite list_filter_filter.
    apply filter_ext_in. tauto.
  - intros (Hlen & size & h & Hgroup).
    set (fl := filter (fun p => stat fs p = Some size) files).
    assert (group = filter (fun p => _calculate_file_hash self fs p = Some h) fl) as Hfl.
    { rewrite Hgroup. unfold fl. rewrite list_filter_filter.
      apply filter_ext_in. tauto. }
    assert (length group ≤ length fl) as Hle by (rewrite Hfl; apply length_filter).
    exists (partition_groups self fs false fl). split.
    + unfold partition_groups. rewrite decide_False by lia.
      apply find_duplicates_hash_groups. eauto.
    + apply list_elem_of_fmap. exists (size, fl). split; [done|].
      apply group_into_classes. split; [|done].
      intros Hnil. rewrite Hnil in Hle. simpl in Hle. lia.
Qed.

Lemma group_ok_opens use_byte files group p :
  group_ok self fs use_byte files group → p ∈ group → is_Some (open_rb fs p).
Proof.
  intros (Hlen & _ & Hmatch) Hp. destruct use_byte.
  - destruct Hmatch as (reference & matched & -> & Hall).
    destruct matched as [|c matched]; [simpl in Hlen; lia|].
    rewrite Forall_forall in Hall.
    assert (∀ c', c' ∈ c :: matched →
              is_Some (open_rb fs reference) ∧ is_Some (open_rb fs c')) as Hopen.
    { intros c' Hc'%Hall. unfold _files_are_identical in Hc'.
      by destruct (open_rb fs reference), (open_rb fs c'). }
    apply elem_of_cons in Hp as [->|Hp].
    + apply (Hopen c). by left.
    + by apply Hopen.
  - destruct Hmatch as (h & Hall). rewrite Forall_forall in Hall.
    apply Hall, _calculate_file_hash_Some in Hp as (data & -> & _). eauto.
Qed.

(** X8. Under either strategy the members of a group are files that
    could be opened, and they stand in the group in the order in which they
    were collected: the first member, which a purge keeps, is the one
    collected first. *)
Theorem scan_groups_in_collection_order (files : list Path) (use_byte_comparison : bool)
    (group : list Path) :
  group ∈ scan_files self fs files use_byte_comparison →
  group `sublist_of` files ∧ ∀ p, p ∈ group → is_Some (open_rb fs p).
Proof.
  intros Hgroup.
  destruct (scan_files_spec self fs files use_byte_comparison) as (Hok & _ & _).
  rewrite Forall_forall in Hok. specialize (Hok _ Hgroup). split.
  - destruct Hok as (_ & (size & Hsub) & _).
    etrans; [exact Hsub|]. apply sublist_filter.
  - intros p. by apply (group_ok_opens use_byte_comparison files).
Qed.

(** X9. The groups of the hash strategy are exactly the classes of
    collected files of one size and one digest that have at least two
    entries: no such class is missed, none is split, and nothing else is
    returned. *)
Theorem hash_groups_are_size_digest_classes (files group : list Path) :
  group ∈ scan_files self fs files false
  ↔ 2 ≤ length group
    ∧ ∃ size h,
        group = filter (fun p => stat fs p = Some size
                                 ∧ _calculate_file_hash self fs p = Some h) files.
Proof. apply scan_files_hash_groups. Qed.
End strategy_groups.

Lemma scan_groups_in_collection_order_witness :
  let files := [["r"; "x.bin"]; ["r"; "secret.bin"]; ["r"; "sub"; "y.bin"]]%string in
  let group := [["r"; "x.bin"]; ["r"; "sub"; "y.bin"]]%string in
  @scan_files toy_runtime default_scanner tree_fs files true = [group]
  ∧ group `sublist_of` files
  ∧ ∀ p, p ∈ group → is_Some (open_rb tree_fs p).
Proof.
  split; [reflexivity|].
  apply (@scan_groups_in_collection_order toy_runtime default_scanner tree_fs _ true).
  vm_compute. by left.
Defined.

(** ** The byte strategy is exact *)

Lemma content_runtime_collision_free (self : DuplicateScanner) (fs : filesystem)
    (files : list Path) :
  chunk_size self ≠ 0%Z → @collision_free content_runtime self fs files.
Proof.
  intros Hn f1 f2 h _ _ H1 H2.
  apply _calculate_file_hash_Some in H1 as (d1 & Ho1 & Hh1).
  apply _calculate_file_hash_Some in H2 as (d2 & Ho2 & Hh2).
  rewrite decide_False in Hh1, Hh2 by done. simpl in Hh1, Hh2.
  rewrite Ho1, Ho2. f_equal.
  rewrite <- (list_byte_of_string_of_list_byte d1), <- (list_byte_of_string_of_list_byte d2).
  congruence.
Qed.


Lemma open_rb_stat (fs : filesystem) (p : Path) (data : list byte) :
  open_rb fs p = Some data → is_Some (stat fs p) →
  stat fs p = Some (Z.of_nat (length data)).
Proof.
  unfold open_rb, stat, st_size. destruct (fs !! p) as [e|]; [|done].
  destruct (kind e); try done. destruct (open_ok e); [|done].
  intros [= ->]. destruct (stat_ok e); [done|]. by intros [? ?].
Qed.

Lemma two_members_length {A} (x y : A) (l : list A) :
  x ∈ l → y ∈ l → x ≠ y → 2 ≤ length l.
Proof.
  destruct l as [|a [|b l]]; simpl; [by intros ?%elem_of_nil| |lia].
  intros ->%list_elem_of_singleton ->%list_elem_of_singleton. done.
Qed.



(** ** Where the collected files come from *)

Section provenance.
Context `{Runtime} (self : DuplicateScanner) (fs : filesystem).
Implicit Types (paths files items : list Path) (p d : Path).

Lemma found_under_child d n : found_under self fs d (d ++ [n]).
Proof. exists [n]. split_and!; [done..|]. intros k. simpl. lia. Qed.

Lemma found_under_step d n p :
  is_dir fs (d ++ [n]) = Some true →
  (follow_symlinks self = false → is_symlink fs (d ++ [n]) = Some false) →
  found_under self fs (d ++ [n]) p → found_under self fs d p.
Proof.
  intros Hdir Hlink (below & -> & Hne & Hent).
  exists (n :: below). split_and!; [by rewrite <- app_assoc | done |].
  intros k Hk. simpl in Hk. destruct k as [|k]; [lia|].
  destruct k as [|k].
  - simpl. by rewrite take_0.
  - specialize (Hent (S k)). rewrite <- !app_assoc in Hent. apply Hent. lia.
Qed.

Lemma scan_entries_found_under (recurse : Path → result (list Path)) d items files found :
  (∀ c fl, recurse c = Ok fl → Forall (found_under self fs c) fl) →
  Forall (fun item => ∃ n, item = d ++ [n]) items →
  Forall (found_under self fs d) files →
  scan_entries recurse self fs items files = Ok found →
  Forall (found_under self fs d) found.
Proof.
  intros Hrec Hitems. revert files.
  induction Hitems as [|item items (n & ->) _ IH]; intros files Hfiles; simpl.
  { by intros [= <-]. }
  destruct (is_file fs (d ++ [n])) as [[]|]; [| |by intros [= <-]].
  { apply IH. destruct (_should_include_file self fs (d ++ [n])); [|done].
    apply Forall_app. split; [done|]. apply Forall_singleton, found_under_child. }
  destruct (is_dir fs (d ++ [n])) as [[]|] eqn:Hdir; [|by apply IH|by intros [= <-]].
  destruct (if follow_symlinks self then Some true else negb <$> is_symlink fs (d ++ [n]))
    as [[]|] eqn:Hlink; [|by apply IH|by intros [= <-]].
  destruct (recurse (d ++ [n])) as [sub|[]] eqn:Hsub; [|by intros [= <-]|done|done].
  apply IH. apply Forall_app. split; [done|].
  eapply Forall_impl; [by eapply Hrec|]. intros p. apply found_under_step; [done|].
  intros Hfollow. rewrite Hfollow in Hlink.
  by destruct (is_symlink fs (d ++ [n])) as [[]|].
Qed.

Lemma iterdir_children d items :
  iterdir fs d = Some items → Forall (fun item => ∃ n, item = d ++ [n]) items.
Proof.
  unfold iterdir. destruct (fs !! d) as [e|]; [|done].
  destruct (kind e); try done. destruct (open_ok e); [|done].
  intros [= <-]. apply Forall_forall. intros item (n & <- & _)%list_elem_of_In%in_map_iff.
  eauto.
Qed.

Lemma scan_directory_found_under depth d found :
  scan_directory depth self fs d = Ok found → Forall (found_under self fs d) found.
Proof.
  revert d found. induction depth as [|depth IH]; intros d found; simpl; [done|].
  destruct (iterdir fs d) as [items|] eqn:Hitems; [|by intros [= <-]].
  apply scan_entries_found_under; [exact IH | by apply iterdir_children | constructor].
Qed.

Lemma direct_files_children d items found :
  Forall (fun item => ∃ n, item = d ++ [n]) items →
  direct_files self fs items = Ok found →
  Forall (fun item => ∃ n, item = d ++ [n]) found.
Proof.
  intros Hitems. revert found.
  induction Hitems as [|item items Hitem _ IH]; intros found; simpl.
  - by intros [= <-].
  - destruct (is_file fs item) as [regular|]; simpl; [|done].
    destruct (direct_files self fs items) as [found'|]; simpl; [|done].
    intros [= <-]. specialize (IH _ eq_refl).
    destruct (regular && _should_include_file self fs item); [|done]. by constructor.
Qed.

Lemma collected_from_root all root :
  root ∈ all → is_file fs root = Some true → collected_from self fs all root.
Proof.
  intros Hroot Hfile. exists root, []. split_and!; try done.
  - by rewrite app_nil_r.
  - simpl. lia.
  - intros k. simpl. lia.
Qed.

Lemma collect_from_provenance all paths files found :
  (∀ root, root ∈ paths → root ∈ all) →
  Forall (collected_from self fs all) files →
  collect_from self fs paths files = Ok found → Forall (collected_from self fs all) found.
Proof.
  revert files. induction paths as [|root paths IH]; intros files Hall Hfiles; simpl.
  { by intros [= <-]. }
  assert (root ∈ all) as Hroot by (apply Hall; by left).
  assert (∀ r, r ∈ paths → r ∈ all) as Hall' by (intros r ?; apply Hall; by right).
  destruct (is_file fs root) as [[]|] eqn:Hfile; simpl; [| |done].
  { apply IH; [done|]. destruct (_should_include_file self fs root); [|done].
    apply Forall_app. split; [done|]. by apply Forall_singleton, collected_from_root. }
  destruct (is_dir fs root) as [[]|] eqn:Hdir; simpl; [|by apply IH|done].
  destruct (recursive self) eqn:Hrec.
  - destruct (_scan_directory_recursive self fs root) as [sub|] eqn:Hsub; simpl; [|done].
    apply IH; [done|]. apply Forall_app. split; [done|].
    eapply Forall_impl; [by eapply scan_directory_found_under|].
    intros p (below & -> & Hne & Hent). exists root, below.
    split_and!; try done; congruence.
  - destruct (iterdir fs root) as [items|] eqn:Hitems; simpl; [|done].
    destruct (direct_files self fs items) as [sub|] eqn:Hsub; simpl; [|done].
    apply IH; [done|]. apply Forall_app. split; [done|].
    eapply Forall_impl;
      [by eapply direct_files_children; [apply iterdir_children|] |].
    intros p (n & ->). exists root, [n]. split_and!; try done.
    intros k. simpl. lia.
Qed.

(** X11. Every file [_collect_files] returns passed the inclusion
    predicate and is one of the roots given, taken as it is when it is a
    file, or lies below a root that is a directory: directly below it when
    the scanner is not recursive, and otherwise through directories only,
    none of them a symbolic link unless links are followed.  A root that is
    itself a symbolic link to a directory is entered either way. *)
Theorem collected_files_provenance (paths files : list Path) :
  _collect_files self fs paths = Ok files →
  ∀ p, p ∈ files →
    _should_include_file self fs p = true
    ∧ ∃ root below,
        root ∈ paths ∧ p = root ++ below
        ∧ (below = [] → is_file fs root = Some true)
        ∧ (below ≠ [] → is_dir fs root = Some true)
        ∧ (recursive self = false → length below ≤ 1)
        ∧ ∀ k, 0 < k < length below →
            is_dir fs (root ++ take k below) = Some true
            ∧ (follow_symlinks self = false →
               is_symlink fs (root ++ take k below) = Some false).
Proof.
  intros Hfiles p Hp. split.
  - apply _collect_files_included in Hfiles. rewrite Forall_forall in Hfiles.
    by apply Hfiles.
  - apply (collect_from_provenance paths) in Hfiles; [|done|constructor].
    rewrite Forall_forall in Hfiles. by apply Hfiles.
Qed.
End provenance.

(** The root is not asked whether it is a link: a directory reached
    through a symbolic link given as a root is scanned with
    [follow_symlinks] off, where the same link met inside a directory is
    passed over. *)
Example scan_symlinked_root :
  let fs : filesystem :=
    list_to_map
      [ (["top"], directory ["link"]);
        (["top"; "link"], Inode (Directory ["a"; "b"]) true true true true);
        (["top"; "link"; "a"], regular_file "same");
        (["top"; "link"; "b"], regular_file "same") ]%string in
  @scan toy_runtime default_scanner fs [["top"; "link"]]%string false
  = Ok [[["top"; "link"; "a"]; ["top"; "link"; "b"]]]%string
  ∧ @scan toy_runtime default_scanner fs [["top"]]%string false = Ok [].
Proof. split; reflexivity. Qed.

Lemma collected_files_provenance_witness :
  let p := ["r"; "sub"; "y.bin"]%string in
  p ∈ [["r"; "x.bin"]; ["r"; "sub"; "y.bin"]]%string
  ∧ _should_include_file default_scanner tree_fs p = true
  ∧ ∃ root below,
      root ∈ [["r"%string]] ∧ p = root ++ below
      ∧ (below = [] → is_file tree_fs root = Some true)
      ∧ (below ≠ [] → is_dir tree_fs root = Some true)
      ∧ (recursive default_scanner = false → length below ≤ 1)
      ∧ ∀ k, 0 < k < length below →
          is_dir tree_fs (root ++ take k below) = Some true
          ∧ (follow_symlinks default_scanner = false →
             is_symlink tree_fs (root ++ take k below) = Some false).
Proof.
  assert (["r"; "sub"; "y.bin"]%string ∈ [["r"; "x.bin"]; ["r"; "sub"; "y.bin"]]%string)
    as Hp by (right; by left).
  split; [exact Hp|].
  apply (@collected_files_provenance toy_runtime
           (Scanner "sha256" 0 None true false 8192) tree_fs [["r"%string]]
           [["r"; "x.bin"]; ["r"; "sub"; "y.bin"]; ["r"; "sub"; "empty1"];
            ["r"; "sub"; "empty2"]; ["r"; "locked.bin"]; ["r"; "secret.bin"]]%string).
  - reflexivity.
  - right. by left.
Defined.

(** ** The traversal completes *)

Section traversal_total.
Context `{Runtime} (self : DuplicateScanner) (fs : filesystem).
Implicit Types (paths files items : list Path) (p d : Path).





End traversal_total.


(** In that tree the entry that cannot be examined ends the listing of
    its directory: [c], which comes after it, is not collected. *)
Example scan_guarded :
  @scan toy_runtime default_scanner guarded_fs [["g"%string]] false
  = Ok [[["g"; "a"]; ["g"; "b"]]]%string.
Proof. reflexivity. Qed.

(** ** The report *)

Section report.
Context (fs : filesystem).
Implicit Types (group : list Path) (groups : list (list Path)).

Lemma marked_app keep lines1 lines2 :
  marked keep (lines1 ++ lines2) = marked keep lines1 ++ marked keep lines2.
Proof. apply omap_app. Qed.

Lemma marked_entry keep number p k lines :
  marked keep (Entry number p k :: lines)
  = (if bool_decide (k = keep) then [p] else []) ++ marked keep lines.
Proof. unfold marked. cbn [omap list_omap]. by destruct (bool_decide (k = keep)). Qed.

Lemma marked_entries_false (entry : nat → Path → report_line) (files : list Path) :
  (∀ j p, ∃ number, entry j p = Entry number p false) →
  marked false (imap entry files) = files ∧ marked true (imap entry files) = [].
Proof.
  revert entry. induction files as [|p files IH]; intros entry Hentry; [done|].
  destruct (IH (entry ∘ S)) as [IH1 IH2]; [intros j q; apply Hentry|].
  destruct (Hentry 0 p) as [number Hp].
  cbn [imap]. by rewrite Hp, !marked_entry, IH1, IH2.
Qed.

Lemma marked_group_entries group :
  marked false (imap (fun j p => Entry (S j) p (bool_decide (j = 0))) group)
    = files_to_remove group
  ∧ marked true (imap (fun j p => Entry (S j) p (bool_decide (j = 0))) group)
    = option_list (head group).
Proof.
  destruct group as [|first group]; [done|].
  destruct (marked_entries_false
              ((fun j p => Entry (S j) p (bool_decide (j = 0))) ∘ S) group) as [H1 H2].
  { intros j p. by exists (S (S j)). }
  cbn [imap]. by rewrite !marked_entry, H1, H2.
Qed.

Lemma marked_group_lines keep header wasted entries :
  marked keep ([header; wasted] ++ entries ++ [BlankLine])
  = marked keep [header; wasted] ++ marked keep entries.
Proof. by rewrite !marked_app, app_nil_r. Qed.

Lemma total_space_wasted_inr groups :
  (∃ total, total_space_wasted fs groups = inr total) ↔ Forall (reportable fs) groups.
Proof.
  induction groups as [|group groups IH]; simpl.
  - split; [constructor | eauto].
  - rewrite Forall_cons, <- IH. unfold reportable.
    destruct group as [|first group]; simpl.
    { split; [by intros [? ?] | by intros [(? & ? & _) _]]. }
    destruct (stat fs first) as [size|] eqn:Hstat.
    + destruct (total_space_wasted fs groups) as [e|total].
      * split; [by intros [? ?] | by intros [_ [? ?]]].
      * split; [|by eauto]. intros _. split; [|by eauto].
        exists first. rewrite Hstat. eauto.
    + split; [by intros [? ?]|]. intros [(? & [= <-] & [? ?]) _]. congruence.
Qed.

Lemma groups_report_reportable i groups written :
  Forall (reportable fs) groups →
  ∃ lines,
    groups_report fs i groups written = (written ++ lines, None)
    ∧ marked false lines = concat (map files_to_remove groups)
    ∧ marked true lines = omap head groups.
Proof.
  intros Hall. revert i written.
  induction Hall as [|group groups (first & Hhead & size & Hsize) _ IH]; intros i written.
  - exists []. by rewrite app_nil_r.
  - destruct group as [|first' group]; [done|]. injection Hhead as ->.
    cbn [groups_report group_report]. rewrite Hsize.
    edestruct IH as (lines & -> & Hdup & Hkeep).
    eexists. split; [by rewrite <- app_assoc|].
    destruct (marked_group_entries (first :: group)) as [H1 H2].
    rewrite !(marked_app _ (_ ++ _)), !marked_group_lines, H1, H2, Hdup, Hkeep.
    done.
Qed.

Lemma groups_report_error i groups written lines e :
  groups_report fs i groups written = (lines, Some e) →
  ¬ Forall (reportable fs) groups.
Proof.
  intros Hrep Hall.
  destruct (groups_report_reportable i groups written Hall) as (? & Heq & _).
  congruence.
Qed.

Lemma output_results_cases groups :
  (Forall (reportable fs) groups → (output_results fs groups).2 = None)
  ∧ (¬ Forall (reportable fs) groups →
     (output_results fs groups).1 = [] ∧ (output_results fs groups).2 ≠ None).
Proof.
  unfold output_results. destruct (decide (groups = [])) as [->|Hne].
  { split; [done|]. intros []. constructor. }
  split.
  - intros Hall. pose proof Hall as [total ->]%total_space_wasted_inr.
    by destruct (groups_report_reportable 1 groups
                   [FoundGroups (length groups) (total_duplicates groups); SpaceSaved total]
                   Hall) as (lines & -> & _).
  - intros Hnot. destruct (total_space_wasted fs groups) as [e|total] eqn:Htotal; [done|].
    destruct Hnot. apply total_space_wasted_inr. eauto.
Qed.

(** X13. [output_results] writes all of its report or none of it: an
    exception escapes exactly when some group is empty or has a first member
    whose size cannot be read, and it escapes from the sum computed before
    the first line is written. *)
Theorem output_results_all_or_nothing (duplicate_groups : list (list Path)) :
  ((output_results fs duplicate_groups).2 = None
   ↔ Forall (fun group => ∃ first, head group = Some first ∧ is_Some (stat fs first))
            duplicate_groups)
  ∧ ((output_results fs duplicate_groups).2 ≠ None →
     (output_results fs duplicate_groups).1 = []).
Proof.
  destruct (output_results_cases duplicate_groups) as [Hok Herr].
  assert (Forall (reportable fs) duplicate_groups
          ∨ ¬ Forall (reportable fs) duplicate_groups) as [Hall|Hnot].
  { destruct (total_space_wasted fs duplicate_groups) as [e|total] eqn:Htotal.
    - right. intros [? ?]%total_space_wasted_inr. congruence.
    - left. apply total_space_wasted_inr. eauto. }
  - split; [by split; auto|]. intros []. auto.
  - destruct (Herr Hnot) as [Hnil Hsome]. split; [|done].
    split; [done | by intros ?].
Qed.

Lemma sizes_total_same size files :
  Forall (fun p => stat fs p = Some size) files →
  sizes_total fs files = (Z.of_nat (length files) * size)%Z.
Proof.
  induction 1 as [|p files Hp _ IH]; [done|].
  unfold sizes_total in *. cbn [foldr length]. rewrite IH, Hp. simpl. lia.
Qed.

Lemma sizes_total_app files1 files2 :
  sizes_total fs (files1 ++ files2) = (sizes_total fs files1 + sizes_total fs files2)%Z.
Proof.
  induction files1 as [|p files1 IH]; [done|].
  unfold sizes_total in *. simpl. rewrite IH. lia.
Qed.

Lemma total_space_wasted_sizes groups total :
  Forall (fun group => ∃ size, Forall (fun p => stat fs p = Some size) group) groups →
  total_space_wasted fs groups = inr total →
  total = sizes_total fs (concat (map files_to_remove groups)).
Proof.
  intros Hall. revert total.
  induction Hall as [|group groups (size & Hsize) _ IH]; intros total; simpl.
  - by intros [= <-].
  - destruct group as [|first group]; [done|].
    pose proof Hsize as [Hfirst Hrest]%Forall_cons. rewrite Hfirst.
    destruct (total_space_wasted fs groups) as [e|total'] eqn:Htotal; [done|].
    intros [= <-]. rewrite sizes_total_app, <- (IH _ eq_refl).
    unfold files_to_remove. cbn [drop length]. rewrite (sizes_total_same size) by done.
    replace (Z.of_nat (S (length group)) - 1)%Z with (Z.of_nat (length group)) by lia.
    done.
Qed.
End report.

(** X14. The report of the groups of a scan, written while the files are
    as they were scanned, cannot fail, and it says what a purge of these
    groups would do: the files it marks as duplicates are, in order, the
    files the purge attempts to remove, the files it marks as kept are the
    first members, the count it announces is the number of the former and
    the space it announces is the sum of their sizes. *)
Theorem report_agrees_with_purge `{Runtime} (self : DuplicateScanner) (fs : filesystem)
    (paths : list Path) (use_byte_comparison : bool) (groups : list (list Path)) :
  scan self fs paths use_byte_comparison = Ok groups →
  groups ≠ [] →
  ∃ lines,
    output_results fs groups
    = (FoundGroups (length groups)
         (Z.of_nat (length (concat (map (drop 1) groups))))
       :: SpaceSaved (sizes_total fs (concat (map (drop 1) groups)))
       :: lines, None)
    ∧ marked false lines = concat (map (drop 1) groups)
    ∧ marked true lines = omap head groups
    ∧ subject <$> printed (purge_duplicates fs groups false) = marked false lines.
Proof.
  intros (files & _ & ->)%scan_Ok Hne.
  destruct (scan_files_spec self fs files use_byte_comparison) as (Hok & _ & _).
  set (groups := scan_files self fs files use_byte_comparison) in *.
  assert (Forall (fun group => group ≠ []
                    ∧ ∃ size, Forall (fun p => stat fs p = Some size) group) groups)
    as Hsame.
  { eapply Forall_impl; [exact Hok|]. intros group (Hlen & (size & Hsub) & _). split.
    - intros ->. simpl in Hlen. lia.
    - exists size. apply Forall_forall. intros p Hp.
      eapply elem_of_sublist in Hp; [|exact Hsub].
      by apply list_elem_of_filter in Hp as [? _]. }
  assert (Forall (reportable fs) groups) as Hrep.
  { eapply Forall_impl; [exact Hsame|]. intros [|first group] (Hnil & size & Hsize); [done|].
    apply Forall_cons in Hsize as [Hfirst _]. exists first. eauto. }
  pose proof Hrep as [total Htotal]%total_space_wasted_inr.
  unfold output_results. rewrite decide_False by done. rewrite Htotal.
  destruct (groups_report_reportable fs 1 groups
              [FoundGroups (length groups) (total_duplicates groups); SpaceSaved total]
              Hrep) as (lines & -> & Hdup & Hkeep).
  exists lines. split_and!; [|done..|].
  - simpl. do 3 f_equal.
    + f_equal. symmetry. apply total_duplicates_tails.
      eapply Forall_impl; [exact Hsame|]. by intros ? [? _].
    + f_equal. apply total_space_wasted_sizes; [|done].
      eapply Forall_impl; [exact Hsame|]. by intros ? [_ ?].
  - rewrite Hdup. unfold purge_duplicates.
    destruct (purge_groups_live (PurgeState 0 [] fs) groups)
      as (new & Hsubjects & Hprinted & _).
    rewrite Hprinted. done.
Qed.

Lemma report_agrees_with_purge_witness :
  let groups := [ [["r"; "x.bin"]; ["r"; "sub"; "y.bin"]; ["r"; "locked.bin"]];
                  [["r"; "sub"; "empty1"]; ["r"; "sub"; "empty2"]] ]%string in
  @scan toy_runtime default_scanner tree_fs [["r"%string]] false = Ok groups
  ∧ groups ≠ []
  ∧ ∃ lines,
      output_results tree_fs groups
      = (FoundGroups 2 3 :: SpaceSaved 8 :: lines, None)
      ∧ marked false lines = concat (map (drop 1) groups)
      ∧ marked true lines = omap head groups
      ∧ subject <$> printed (purge_duplicates tree_fs groups false) = marked false lines.
Proof.
  split; [reflexivity|]. split; [done|].
  apply (@report_agrees_with_purge toy_runtime default_scanner tree_fs [["r"%string]] false);
    [reflexivity | done].
Defined.

(** ** Path validation *)

Section validation.
Context (fs : filesystem).
Implicit Types (paths valid warned : list Path).

Lemma exists_Some_true p : exists_ fs p = Some true → is_Some (fs !! p).
Proof. unfold exists_. destruct (fs !! p); [eauto|done]. Qed.

Lemma exists_Some_false p : exists_ fs p = Some false → fs !! p = None.
Proof. unfold exists_. destruct (fs !! p) as [e|]; [by destruct (stat_ok e)|done]. Qed.

Lemma validate_loop_spec paths valid warned valid' warned' escaped :
  validate_loop fs paths valid warned = (valid', warned', escaped) →
  match escaped with
  | None =>
      valid' = valid ++ filter (fun p => is_Some (fs !! p)) paths
      ∧ warned' = warned ++ filter (fun p => fs !! p = None) paths
  | Some e => e = OSError ∧ ∃ p, p ∈ paths ∧ exists_ fs p = None
  end.
Proof.
  revert valid warned. induction paths as [|p paths IH]; intros valid warned; simpl.
  - intros [= <- <- <-]. by rewrite !app_nil_r.
  - destruct (exists_ fs p) as [[]|] eqn:Hp.
    + intros Hloop%IH. apply exists_Some_true in Hp as Hsome.
      assert (fs !! p ≠ None) as Hne by (by destruct Hsome as [? ->]).
      rewrite filter_cons_True, filter_cons_False by done.
      destruct escaped as [e|].
      * destruct Hloop as (-> & q & Hq & Hnone). split; [done|]. exists q. split; [by right|done].
      * by rewrite <- !app_assoc in Hloop.
    + intros Hloop%IH. apply exists_Some_false in Hp as Hnone.
      rewrite filter_cons_False, filter_cons_True by (done || rewrite Hnone; by intros [? ?]).
      destruct escaped as [e|].
      * destruct Hloop as (-> & q & Hq & Hq'). split; [done|]. exists q. split; [by right|done].
      * by rewrite <- !app_assoc in Hloop.
    + intros [= <- <- <-]. split; [done|]. exists p. split; [by left|done].
Qed.
End validation.

(** X15. [validate_paths] returns the paths that exist, in the order
    given, and warns about the others; it leaves with exit status 1 exactly
    when none exists; an error other than absence met while looking a path
    up escapes.  A scan of the paths returned gives what a scan of the paths
    as given would: the validation changes no result. *)
Theorem validate_paths_outcomes `{Runtime} (self : DuplicateScanner) (fs : filesystem)
    (paths : list Path) (use_byte_comparison : bool) (warned : list Path) :
  (∀ valid_paths,
     validate_paths fs paths = (warned, Valid valid_paths) →
     valid_paths = filter (fun p => is_Some (fs !! p)) paths
     ∧ valid_paths ≠ []
     ∧ warned = filter (fun p => fs !! p = None) paths
     ∧ scan self fs valid_paths use_byte_comparison
       = scan self fs paths use_byte_comparison)
  ∧ (∀ code,
       validate_paths fs paths = (warned, SysExit code) →
       code = 1%Z ∧ Forall (fun p => fs !! p = None) paths ∧ warned = paths)
  ∧ (∀ e,
       validate_paths fs paths = (warned, Escaped e) →
       e = OSError ∧ ∃ p, p ∈ paths ∧ exists_ fs p = None).
Proof.
  unfold validate_paths.
  destruct (validate_loop fs paths [] []) as [[valid' warned'] escaped] eqn:Hloop.
  apply validate_loop_spec in Hloop. destruct escaped as [e'|].
  - destruct Hloop as [-> Hp]. split_and!; [done..|]. by intros e [= -> ->].
  - destruct Hloop as [-> ->]. simpl. case_decide as Hvalid.
    + split_and!; [done| |done]. intros code [= <- <-].
      assert (Forall (fun p => fs !! p = None) paths) as Hall.
      { apply Forall_forall. intros p Hp. destruct (fs !! p) as [e|] eqn:He; [|done].
        assert (p ∈ filter (fun p => is_Some (fs !! p)) paths) as Hin
          by (apply list_elem_of_filter; rewrite He; eauto).
        rewrite Hvalid in Hin. by apply elem_of_nil in Hin. }
      split_and!; [done..|]. apply filter_all. by apply Forall_forall.
    + split_and!; [|done..]. intros valid_paths [= <- <-]. split_and!; [done..|].
      unfold scan, _collect_files. by rewrite <- collect_from_existing.
Qed.

Lemma validate_paths_outcomes_witness :
  let paths := [["d"]; ["nowhere"]; ["d"; "a.txt"]]%string in
  validate_paths hello_fs paths = ([["nowhere"]], Valid [["d"]; ["d"; "a.txt"]])%string
  ∧ @scan toy_runtime default_scanner hello_fs [["d"]; ["d"; "a.txt"]]%string false
    = @scan toy_runtime default_scanner hello_fs paths false.
Proof.
  split; [reflexivity|].
  destruct (@validate_paths_outcomes toy_runtime default_scanner hello_fs
              [["d"]; ["nowhere"]; ["d"; "a.txt"]]%string false [["nowhere"%string]])
    as (Hvalid & _ & _).
  by destruct (Hvalid [["d"]; ["d"; "a.txt"]]%string eq_refl) as (_ & _ & _ & ->).
Defined.

(** ** [deduper/deduper/core.py]: comparison and search *)

Section core_scan.
Context `{Runtime} (fs : filesystem).
Implicit Types (files group yielded : list Path) (p : Path).

Lemma core_files_are_identical_nonzero (file1 file2 : Path) (chunk_size : Z) :
  chunk_size ≠ 0%Z →
  CoreScan.files_are_identical fs file1 file2 chunk_size = true
  ↔ is_Some (stat fs file1) ∧ is_Some (stat fs file2)
    ∧ ∃ data, open_rb fs file1 = Some data ∧ open_rb fs file2 = Some data.
Proof.
  intros Hn. unfold CoreScan.files_are_identical.
  destruct (stat fs file1) as [size1|] eqn:Hs1; simpl;
    [|split; [done | by intros ([? ?] & _)]].
  destruct (stat fs file2) as [size2|] eqn:Hs2; simpl;
    [|split; [done | by intros (_ & [? ?] & _)]].
  destruct (decide (size1 ≠ size2)) as [Hne|Heq]; simpl.
  { split; [done|]. intros (_ & _ & data & Ho1 & Ho2).
    apply open_rb_stat in Ho1, Ho2; eauto. congruence. }
  destruct (open_rb fs file1) as [f1|]; simpl; [|split; [done | by intros (_ & _ & ? & ? & _)]].
  destruct (open_rb fs file2) as [f2|]; simpl; [|split; [done | by intros (_ & _ & ? & _ & ?)]].
  rewrite compare_chunks_nonzero by done. split.
  - intros ->%bool_decide_eq_true. eauto 6.
  - intros (_ & _ & data & [= ->] & [= ->]). by apply bool_decide_eq_true.
Qed.


(** On files that can be examined, [files_are_identical] with its default
    chunk size and the scanner's [_files_are_identical] agree. *)
Lemma core_identical_scanner (file1 file2 : Path) :
  is_Some (stat fs file1) → is_Some (stat fs file2) →
  CoreScan.files_are_identical fs file1 file2 8192 = true
  ↔ _files_are_identical chunked_8192 fs file1 file2 = Some true.
Proof.
  intros Hs1 Hs2. rewrite core_files_are_identical_nonzero by done.
  destruct (_files_are_identical_nonzero chunked_8192 fs file1 file2) as [Hiff _]; [done|].
  rewrite Hiff. tauto.
Qed.

Lemma verify_candidates_byte (file1 : Path) (candidates group : list Path)
    (processed : gset Path) :
  is_Some (stat fs file1) → Forall (fun c => is_Some (stat fs c)) candidates →
  CoreScan.verify_candidates fs file1 candidates group processed
  = byte_candidates chunked_8192 fs file1 candidates group processed.
Proof.
  intros Hs1 Hall. revert group processed.
  induction Hall as [|c candidates Hc _ IH]; intros group processed; [done|].
  cbn [CoreScan.verify_candidates byte_candidates].
  destruct (decide (c ∈ processed)); [apply IH|].
  pose proof (core_identical_scanner file1 c Hs1 Hc) as Hiff.
  destruct (CoreScan.files_are_identical fs file1 c 8192).
  - assert (_files_are_identical chunked_8192 fs file1 c = Some true) as ->
      by (by apply Hiff).
    apply IH.
  - destruct (_files_are_identical chunked_8192 fs file1 c) as [[]|]; try apply IH.
    assert (false = true) by (by apply Hiff). done.
Qed.

Lemma verify_references_byte files (groups : list (list Path)) (processed : gset Path) :
  Forall (fun c => is_Some (stat fs c)) files →
  CoreScan.verify_references fs files groups processed
  = byte_references chunked_8192 fs files groups processed.
Proof.
  intros Hall. revert groups processed.
  induction Hall as [|r files Hr Hall IH]; intros groups processed; [done|].
  cbn [CoreScan.verify_references byte_references].
  destruct (decide (r ∈ processed)); [apply IH|].
  rewrite verify_candidates_byte by done.
  destruct (byte_candidates _ _ _ _ _ _) as [group processed']. apply IH.
Qed.

Lemma hash_pass_group_into yielded hash_groups hash_groups' :
  CoreScan.hash_pass fs yielded hash_groups = Ok hash_groups' →
  hash_groups' = group_into (hash_key fs) yielded hash_groups.
Proof.
  revert hash_groups. induction yielded as [|p yielded IH]; intros hash_groups.
  - by intros [= <-].
  - cbn [CoreScan.hash_pass]. rewrite group_into_step. unfold hash_key at 2.
    destruct (is_file fs p) as [[]|]; simpl; [| |done].
    + destruct (CoreScan.calculate_file_hash fs p 8192) as [h|]; [|apply IH].
      destruct (decide (h = EmptyString)); apply IH.
    + apply IH.
Qed.

Lemma hash_key_stat p h : hash_key fs p = Some h → is_Some (stat fs p).
Proof.
  unfold hash_key, is_file, stat. destruct (fs !! p) as [e|]; [|done].
  destruct (stat_ok e); [eauto|done].
Qed.

Lemma hash_key_regular p h : hash_key fs p = Some h → is_file fs p = Some true.
Proof. unfold hash_key. by destruct (is_file fs p) as [[]|]. Qed.

Lemma verify_groups_concat hash_groups acc :
  foldl (CoreScan.verify_hash_group fs) acc hash_groups
  = acc ++ concat (map (fun item => if decide (length item.2 ≤ 1) then []
                                    else CoreScan.verify_references fs item.2 [] ∅)
                       hash_groups).
Proof.
  revert acc. induction hash_groups as [|[h files] d IH]; intros acc; simpl.
  - by rewrite app_nil_r.
  - rewrite IH. destruct (decide (length files ≤ 1)); simpl; [done|].
    by rewrite app_assoc.
Qed.

Lemma labelled_NoDup_concat {L} (label : Path → option L) (d : list (L * list Path))
    (f : list Path → list (list Path)) :
  NoDup d.*1 →
  (∀ l g p, (l, g) ∈ d → p ∈ g → label p = Some l) →
  (∀ g, NoDup (concat (f g)) ∧ ∀ p, p ∈ concat (f g) → p ∈ g) →
  NoDup (concat (concat (map (fun item => f item.2) d))).
Proof.
  intros Hnd Hlabel Hf. induction d as [|[l g] d IH]; [constructor|].
  rewrite fmap_cons in Hnd. apply NoDup_cons in Hnd as [Hl Hnd].
  cbn [map concat]. rewrite concat_app. apply NoDup_app. split_and!.
  - apply Hf.
  - intros p Hp%Hf Hp'. simpl in Hp.
    apply elem_of_concat in Hp' as (group & Hgroup & Hin).
    apply elem_of_concat in Hin as (gs & Hgs & Hitem).
    apply list_elem_of_fmap in Hitem as ([l' g'] & -> & Hitem). simpl in Hgs.
    assert (p ∈ g') as Hp'.
    { apply Hf, elem_of_concat. eauto. }
    assert (label p = Some l) as Hl1 by (eapply Hlabel; [by left|done]).
    assert (label p = Some l') as Hl2 by (eapply Hlabel; [by right|done]).
    apply Hl. apply list_elem_of_fmap. exists (l', g'). split; [|done]. simpl. congruence.
  - apply IH; [done|]. intros l' g' p ? ?. eapply Hlabel; [by right|done].
Qed.

Lemma byte_references_members files group p :
  group ∈ byte_references chunked_8192 fs files [] ∅ → p ∈ group → p ∈ files.
Proof.
  intros Hgroup Hp.
  destruct (byte_references_spec chunked_8192 fs files [] ∅) as (new & Heq & _ & _ & Hok).
  rewrite Heq in Hgroup. simpl in Hgroup. rewrite Forall_forall in Hok.
  destruct (Hok _ Hgroup) as (_ & reference & matched & _ & Hsub & _).
  by eapply elem_of_sublist.
Qed.

Lemma find_duplicates_Ok yielded groups :
  CoreScan.find_duplicates fs yielded = Ok groups →
  groups = concat (map (fun item => if decide (length item.2 ≤ 1) then []
                                    else byte_references chunked_8192 fs item.2 [] ∅)
                       (group_into (hash_key fs) yielded [])).
Proof.
  unfold CoreScan.find_duplicates.
  destruct (CoreScan.hash_pass fs yielded []) as [hash_groups|] eqn:Hpass; [|done].
  simpl. intros [= <-]. apply hash_pass_group_into in Hpass as ->.
  unfold CoreScan.verify_duplicates_with_byte_comparison.
  rewrite verify_groups_concat. simpl. f_equal.
  apply map_ext_in. intros [h files] Hitem%list_elem_of_In. simpl.
  destruct (decide (length files ≤ 1)); [done|].
  apply verify_references_byte. apply Forall_forall. intros p Hp.
  apply group_into_elem_of in Hitem. subst files.
  apply list_elem_of_filter in Hp as [Hkey _]. by eapply hash_key_stat.
Qed.

Lemma find_duplicates_spec (yielded : list Path) (groups : list (list Path)) :
  CoreScan.find_duplicates fs yielded = Ok groups →
  NoDup (concat groups)
  ∧ ∀ group, group ∈ groups →
      2 ≤ length group
      ∧ group `sublist_of` yielded
      ∧ ∃ data, ∀ p, p ∈ group → is_file fs p = Some true ∧ open_rb fs p = Some data.
Proof.
  intros ->%find_duplicates_Ok.
  set (d := group_into (hash_key fs) yielded []).
  set (f := fun files : list Path =>
              if decide (length files ≤ 1) then []
              else byte_references chunked_8192 fs files [] ∅).
  assert (∀ files, NoDup (concat (f files))
                   ∧ Forall (byte_group_ok chunked_8192 fs files) (f files)) as Hf.
  { intros files. unfold f. case_decide; [by split; constructor|].
    by destruct (byte_references_spec chunked_8192 fs files [] ∅)
      as (new & -> & ? & _ & ?). }
  assert (∀ h files, (h, files) ∈ d → files = filter (fun p => hash_key fs p = Some h) yielded)
    as Hd by (intros h files; apply group_into_elem_of).
  split.
  - apply (labelled_NoDup_concat (hash_key fs) d f).
    + apply group_into_NoDup. constructor.
    + intros h files p ->%Hd Hp. by apply list_elem_of_filter in Hp as [? _].
    + intros files. split; [apply Hf|].
      intros p (group & Hp & Hgroup)%elem_of_concat.
      destruct (Hf files) as [_ Hok]. rewrite Forall_forall in Hok.
      destruct (Hok _ Hgroup) as (_ & ? & ? & _ & Hsub & _). by eapply elem_of_sublist.
  - intros group (gs & Hgroup & Hgs)%elem_of_concat.
    apply list_elem_of_fmap in Hgs as ([h files] & -> & Hitem). simpl in Hgroup.
    apply Hd in Hitem as Hfiles.
    destruct (Hf files) as [_ Hok]. rewrite Forall_forall in Hok.
    destruct (Hok _ Hgroup) as (Hlen & reference & matched & -> & Hsub & Hall).
    assert (∀ p, p ∈ reference :: matched → is_file fs p = Some true) as Hregular.
    { intros p Hp. eapply elem_of_sublist in Hp; [|exact Hsub]. rewrite Hfiles in Hp.
      apply list_elem_of_filter in Hp as [Hkey _]. by eapply hash_key_regular. }
    split_and!; [done | |].
    { etrans; [exact Hsub|]. rewrite Hfiles. apply sublist_filter. }
    destruct matched as [|c matched]; [simpl in Hlen; lia|].
    rewrite Forall_forall in Hall.
    assert (_files_are_identical chunked_8192 fs reference c = Some true) as Hc
      by (apply Hall; by left).
    apply _files_are_identical_nonzero in Hc as (data & Href & _); [|done].
    exists data. intros p Hp. split; [by apply Hregular|].
    apply elem_of_cons in Hp as [->|Hp]; [done|].
    apply Hall, _files_are_identical_nonzero in Hp as (data' & Href' & Hp); [|done].
    congruence.
Qed.

(** X17. What [find_duplicates] returns holds no false positive, whatever
    the digests: a group has at least two members, all of them regular
    files among those yielded, in the order yielded, holding the same bytes;
    and no path is in the result twice. *)
Theorem core_find_duplicates_sound (yielded : list Path) (groups : list (list Path)) :
  CoreScan.find_duplicates fs yielded = Ok groups →
  NoDup (concat groups)
  ∧ ∀ group, group ∈ groups →
      2 ≤ length group
      ∧ group `sublist_of` yielded
      ∧ ∃ data, ∀ p, p ∈ group → is_file fs p = Some true ∧ open_rb fs p = Some data.
Proof. apply find_duplicates_spec. Qed.
End core_scan.


Lemma core_find_duplicates_sound_witness :
  let yielded := [["d"; "a.txt"]; ["d"; "b.txt"]; ["d"; "c.txt"]]%string in
  let groups := [[["d"; "a.txt"]; ["d"; "b.txt"]]]%string in
  @CoreScan.find_duplicates toy_runtime hello_fs yielded = Ok groups
  ∧ NoDup (concat groups)
  ∧ ∀ group, group ∈ groups →
      2 ≤ length group
      ∧ group `sublist_of` yielded
      ∧ ∃ data, ∀ p, p ∈ group →
          is_file hello_fs p = Some true ∧ open_rb hello_fs p = Some data.
Proof.
  split; [reflexivity|].
  by apply (@core_find_duplicates_sound toy_runtime hello_fs).
Defined.

Section core_complete.
Context `{Runtime} (fs : filesystem).

(** X18. [find_duplicates] misses no duplicate: when no path is yielded
    twice, two different regular files that hold the same bytes, whose
    digest is not the empty string, are in one group together. *)
Theorem core_find_duplicates_complete (yielded : list Path) (groups : list (list Path))
    (f1 f2 : Path) (data : list byte) :
  CoreScan.find_duplicates fs yielded = Ok groups →
  NoDup yielded →
  f1 ∈ yielded → f2 ∈ yielded → f1 ≠ f2 →
  is_file fs f1 = Some true → is_file fs f2 = Some true →
  open_rb fs f1 = Some data → open_rb fs f2 = Some data →
  digest "sha256" data ≠ EmptyString →
  ∃ group, group ∈ groups ∧ f1 ∈ group ∧ f2 ∈ group.
Proof.
  intros ->%find_duplicates_Ok Hnd Hf1 Hf2 Hne Hr1 Hr2 Ho1 Ho2 Hdigest.
  set (h := digest "sha256" data).
  set (bucket := filter (fun p => hash_key fs p = Some h) yielded).
  assert (∀ f, f ∈ yielded → is_file fs f = Some true → open_rb fs f = Some data →
               f ∈ bucket) as Hbucket.
  { intros f Hf Hr Ho. apply list_elem_of_filter. split; [|done].
    unfold hash_key, CoreScan.calculate_file_hash. rewrite Hr, Ho. simpl.
    rewrite hash_chunks_nonzero by done. unfold hexdigest. simpl.
    by rewrite decide_False. }
  assert (2 ≤ length bucket) as Hlen by (apply (two_members_length f1 f2); auto).
  set (group := filter (fun p => @_calculate_file_hash content_runtime chunked_8192 fs p
                                 = Some (string_of_list_byte data)) bucket).
  assert (∀ f, f ∈ bucket → open_rb fs f = Some data → f ∈ group) as Hgroup.
  { intros f Hf Ho. apply list_elem_of_filter. split; [|done].
    rewrite (@_calculate_file_hash_nonzero content_runtime) by done. by rewrite Ho. }
  exists group. split_and!; [|by auto..].
  apply elem_of_concat.
  exists (byte_references chunked_8192 fs bucket [] ∅). split.
  - rewrite (@byte_references_hash content_runtime chunked_8192 fs bucket bucket [] ∅).
    + simpl. rewrite filter_all by set_solver.
      apply (@find_duplicates_hash_groups content_runtime). split; [|by eauto].
      apply (two_members_length f1 f2); auto.
    + by apply content_runtime_collision_free.
    + done.
    + by apply NoDup_filter.
  - apply list_elem_of_fmap. exists (h, bucket). split.
    + simpl. by rewrite decide_False by lia.
    + apply group_into_classes. split; [|done].
      intros Hnil. rewrite Hnil in Hlen. simpl in Hlen. lia.
Qed.
End core_complete.

Lemma core_find_duplicates_complete_witness :
  let yielded := [["d"; "a.txt"]; ["d"; "c.txt"]; ["d"; "b.txt"]]%string in
  let groups := [[["d"; "a.txt"]; ["d"; "b.txt"]]]%string in
  @CoreScan.find_duplicates toy_runtime hello_fs yielded = Ok groups
  ∧ ∃ group, group ∈ groups ∧ ["d"; "a.txt"]%string ∈ group ∧ ["d"; "b.txt"]%string ∈ group.
Proof.
  split; [reflexivity|].
  apply (@core_find_duplicates_complete toy_runtime hello_fs
           [["d"; "a.txt"]; ["d"; "c.txt"]; ["d"; "b.txt"]]%string _
           ["d"; "a.txt"]%string ["d"; "b.txt"]%string (list_byte_of_string "hello"));
    try reflexivity; try done.
  - apply (bool_decide_unpack _). vm_compute. exact I.
  - by left.
  - right. right. by left.
Defined.

(** ** [deduper/deduper/core.py]: listing and deletion *)

Section core_delete.
Implicit Types (fs : filesystem) (group : list Path) (groups : list (list Path)).



Lemma delete_groups_dry_run (st : list Core.echo * filesystem) groups :
  (foldl (Core.delete_group true) st groups).2 = st.2
  ∧ would_delete (foldl (Core.delete_group true) st groups).1
    = would_delete st.1 ++ planned groups.
Proof.
  revert st. induction groups as [|group groups IH]; intros st.
  - unfold planned. simpl. by rewrite app_nil_r.
  - cbn [foldl]. destruct (IH (Core.delete_group true st group)) as [-> ->].
    unfold planned, Core.delete_group. cbn [map concat].
    destruct (Core.deletion_plan group) as [[keeper dels]|]; [|done].
    simpl. split; [done|]. unfold would_delete. rewrite omap_app. simpl.
    rewrite <- app_assoc. do 2 f_equal.
    induction dels as [|d dels IHd]; [done|]. simpl. by rewrite IHd.
Qed.




Lemma unmarked_group (keeper : Path) group :
  unmarked (map (fun p => CoreScan.Listed p (bool_decide (p = keeper))) group)
  = filter (fun f => f ≠ keeper) group.
Proof.
  induction group as [|p group IH]; [done|].
  unfold unmarked in *. cbn [map omap list_omap]. rewrite IH.
  destruct (decide (p = keeper)) as [->|Hne].
  - rewrite bool_decide_eq_true_2 by done. by rewrite filter_cons_False by auto.
  - rewrite bool_decide_eq_false_2 by done. by rewrite filter_cons_True by auto.
Qed.

Lemma print_groups_spec i groups (echoed : list CoreScan.listing) :
  ((CoreScan.print_groups i groups echoed).2 = true ↔ [] ∈ groups)
  ∧ ([] ∉ groups →
     unmarked (CoreScan.print_groups i groups echoed).1 = unmarked echoed ++ planned groups).
Proof.
  revert i echoed. induction groups as [|group groups IH]; intros i echoed.
  - simpl. split; [by split; [|intros ?%elem_of_nil] |].
    intros _. unfold planned. simpl. by rewrite app_nil_r.
  - cbn [CoreScan.print_groups]. destruct group as [|f others].
    + simpl. split; [split; [by left|done] |]. intros []. by left.
    + destruct (IH (S i) ((echoed ++ [CoreScan.GroupTitle i (length (f :: others))])
                          ++ map (fun p => CoreScan.Listed p
                                     (bool_decide (p = Core.py_min
                                        (fun f => String.length (name f)) f others)))
                                 (f :: others))) as [IH1 IH2].
      split.
      * rewrite IH1. split; [by right|]. by intros [[=]|?]%elem_of_cons.
      * intros Hnot. apply not_elem_of_cons in Hnot as [_ Hnot].
        rewrite IH2 by done. unfold unmarked at 1. rewrite !omap_app.
        fold (unmarked echoed).
        fold (unmarked (map (fun p => CoreScan.Listed p
                              (bool_decide (p = Core.py_min
                                 (fun f => String.length (name f)) f others)))
                            (f :: others))).
        rewrite unmarked_group. simpl omap at 1. rewrite app_nil_r, <- app_assoc.
        f_equal. unfold planned. cbn [map concat]. f_equal.
        destruct others as [|g rest]; [|done].
        simpl. by rewrite filter_cons_False by auto.
Qed.
End core_delete.

(** X19. A listing and a deletion never disagree about what is kept:
    [print_duplicate_groups] fails, with the [ValueError] of [min], exactly
    when some group is empty, which [delete_duplicates] passes over; and
    when none is, the files it shows without the mark of the file to keep
    are, in order, the files a dry run of [delete_duplicates] says it would
    delete. *)
Theorem listing_agrees_with_deletion (fs : filesystem) (duplicate_groups : list (list Path)) :
  ((CoreScan.print_duplicate_groups duplicate_groups).2 = true ↔ [] ∈ duplicate_groups)
  ∧ ([] ∉ duplicate_groups →
     unmarked (CoreScan.print_duplicate_groups duplicate_groups).1
     = would_delete (Core.delete_duplicates fs duplicate_groups true).1).
Proof.
  unfold CoreScan.print_duplicate_groups, Core.delete_duplicates.
  destruct (delete_groups_dry_run ([], fs) duplicate_groups) as [_ ->].
  case_decide as Hnil.
  - subst. split; [by split; [|intros ?%elem_of_nil] | done].
  - destruct (print_groups_spec 1 duplicate_groups
                [CoreScan.FoundGroupCount (length duplicate_groups);
                 CoreScan.TotalDuplicateFiles (total_duplicates duplicate_groups)])
      as [H1 H2].
    split; [done|]. intros Hnot. by rewrite H2.
Qed.

Lemma listing_agrees_with_deletion_witness :
  let groups := [[["d"; "notes-copy.txt"]; ["a-long-directory"; "b.txt"]; ["d"; "a.txt"]];
                 [["d"; "single"]]]%string in
  unmarked (CoreScan.print_duplicate_groups groups).1
  = [["d"; "notes-copy.txt"]; ["d"; "a.txt"]]%string
  ∧ would_delete (Core.delete_duplicates hello_fs groups true).1
    = [["d"; "notes-copy.txt"]; ["d"; "a.txt"]]%string.
Proof.
  split; [reflexivity|].
  destruct (listing_agrees_with_deletion hello_fs
              [[["d"; "notes-copy.txt"]; ["a-long-directory"; "b.txt"]; ["d"; "a.txt"]];
               [["d"; "single"]]]%string) as [_ <-]; [reflexivity|].
  intros Hin. repeat (apply elem_of_cons in Hin as [[=]|Hin]). by apply elem_of_nil in Hin.
Defined.



(** ** File names *)

Section safe_names.
Implicit Types (s chars : list ascii) (c : ascii).

Lemma replace_problematic_clean s c :
  c ∈ Utils.replace_problematic s → c ∉ Utils.problematic.
Proof.
  unfold Utils.replace_problematic. intros (c' & <- & _)%list_elem_of_In%in_map_iff.
  destruct (decide (c' ∈ Utils.problematic)); [|done].
  apply (bool_decide_unpack _). by vm_compute.
Qed.

Lemma replace_problematic_id s :
  Forall (fun c => c ∉ Utils.problematic) s → Utils.replace_problematic s = s.
Proof.
  induction 1 as [|c s Hc _ IH]; [done|].
  unfold Utils.replace_problematic in *. simpl. rewrite IH. by rewrite decide_False.
Qed.

Lemma lstrip_suffix chars s : Utils.lstrip chars s `suffix_of` s.
Proof.
  induction s as [|c s IH]; [done|]. simpl.
  destruct (decide (c ∈ chars)); [by apply suffix_cons_r|done].
Qed.

Lemma lstrip_id chars s :
  (∀ c, head s = Some c → c ∉ chars) → Utils.lstrip chars s = s.
Proof. destruct s as [|c s]; [done|]. intros Hc. simpl. by rewrite decide_False by auto. Qed.

Lemma strip_elem_of chars s c : c ∈ Utils.strip chars s → c ∈ s.
Proof.
  unfold Utils.strip, Utils.rstrip. rewrite elem_of_reverse. intros Hc.
  destruct (lstrip_suffix chars (reverse (Utils.lstrip chars s))) as [k Hk].
  assert (c ∈ reverse (Utils.lstrip chars s)) as Hc'.
  { rewrite Hk, elem_of_app. by right. }
  rewrite elem_of_reverse in Hc'.
  destruct (lstrip_suffix chars s) as [k' Hk'].
  rewrite Hk', elem_of_app. by right.
Qed.

Lemma strip_id chars s :
  (∀ c, head s = Some c → c ∉ chars) → (∀ c, last s = Some c → c ∉ chars) →
  Utils.strip chars s = s.
Proof.
  intros Hhead Hlast. unfold Utils.strip, Utils.rstrip.
  rewrite (lstrip_id chars s) by done. rewrite lstrip_id; [apply reverse_involutive|].
  intros c. rewrite head_reverse. apply Hlast.
Qed.

Lemma rsplit_dot_Some s before after :
  Utils.rsplit_dot s = Some (before, after) →
  s = before ++ "."%char :: after ∧ "."%char ∉ after.
Proof.
  revert before. induction s as [|c s IH]; intros before; simpl; [done|].
  destruct (Utils.rsplit_dot s) as [[b a]|] eqn:Hs.
  - intros [= <- <-]. destruct (IH b eq_refl) as [-> Hnot]. done.
  - destruct (decide (c = "."%char)) as [->|]; [|done].
    intros [= <- <-]. split; [done|].
    clear IH. induction s as [|c s IH]; [by intros ?%elem_of_nil|].
    simpl in Hs. destruct (Utils.rsplit_dot s) as [[b a]|]; [done|].
    destruct (decide (c = "."%char)); [done|].
    intros [<-|?]%elem_of_cons; [done|]. by apply IH.
Qed.

Lemma slice_to_take k s : ∃ n, Utils.slice_to k s = take n s ∧ ((0 ≤ k)%Z → n = Z.to_nat k).
Proof.
  unfold Utils.slice_to. destruct (k <? 0)%Z eqn:Hk.
  - eexists. split; [done|]. lia.
  - eauto.
Qed.

Lemma cleaned_spec filename :
  cleaned filename ≠ [] ∧ ∀ c, c ∈ cleaned filename → c ∉ Utils.problematic.
Proof.
  unfold cleaned. cbv zeta. case_decide as Hnil.
  - split; [done|]. intros c Hc. revert c Hc. apply Forall_forall.
    apply (bool_decide_unpack _). by vm_compute.
  - split; [done|]. intros c Hc%strip_elem_of. by eapply replace_problematic_clean.
Qed.

Lemma safe_filename_cleaned filename :
  Utils.safe_filename filename
  = if decide (200 < length (cleaned filename)) then
      let '(name, ext) := default (cleaned filename, []) (Utils.rsplit_dot (cleaned filename)) in
      Utils.slice_to (200 - Z.of_nat (length ext) - 1) name
      ++ (if decide (ext = []) then [] else "."%char :: ext)
    else cleaned filename.
Proof. reflexivity. Qed.

(** How a name longer than 200 characters is cut: a prefix of what stands
    before the last dot, and the extension when there is one. *)
Lemma safe_filename_long filename :
  200 < length (cleaned filename) →
  ∃ name ext n,
    Utils.safe_filename filename
    = take n name ++ (if decide (ext = []) then [] else "."%char :: ext)
    ∧ ("."%char ∉ ext)
    ∧ (ext = [] → n = 199 ∧ 200 ≤ length name)
    ∧ (length ext < 200 → n = 199 - length ext)
    ∧ (∀ c, c ∈ name ++ ext → c ∈ cleaned filename).
Proof.
  intros Hlong. rewrite safe_filename_cleaned, decide_True by done.
  destruct (Utils.rsplit_dot (cleaned filename)) as [[name ext]|] eqn:Hsplit; simpl.
  - apply rsplit_dot_Some in Hsplit as [Hname Hext].
    destruct (slice_to_take (200 - Z.of_nat (length ext) - 1) name) as (n & -> & Hn).
    exists name, ext, n. split_and!; [done..| | |].
    + intros ->. simpl in *. rewrite Hname, length_app in Hlong. simpl in Hlong.
      split; [rewrite Hn; lia | lia].
    + intros Hlen. rewrite Hn; lia.
    + intros c Hc. rewrite Hname. rewrite elem_of_app in Hc. rewrite elem_of_app, elem_of_cons.
      tauto.
  - destruct (slice_to_take (200 - Z.of_nat 0 - 1) (cleaned filename)) as (n & -> & Hn).
    exists (cleaned filename), [], n. split_and!; [done | by intros ?%elem_of_nil | | |].
    + intros _. split; [rewrite Hn; lia | lia].
    + intros _. simpl. rewrite Hn; lia.
    + intros c. by rewrite app_nil_r.
Qed.

(** X21. [safe_filename] never returns the empty string, and what it
    returns holds none of the characters it is there to remove. *)
Theorem safe_filename_is_safe (filename : list ascii) :
  Utils.safe_filename filename ≠ []
  ∧ ∀ c, c ∈ Utils.safe_filename filename → c ∉ Utils.problematic.
Proof.
  destruct (cleaned_spec filename) as [Hne Hclean].
  destruct (decide (200 < length (cleaned filename))) as [Hlong|Hshort].
  - destruct (safe_filename_long filename Hlong) as (name & ext & n & -> & _ & Hnil & _ & Hsub).
    split.
    + destruct (decide (ext = [])) as [->|Hext].
      * destruct (Hnil eq_refl) as [-> Hlen]. rewrite app_nil_r.
        destruct name; simpl in *; [lia|done].
      * by destruct (take n name).
    + intros c Hc. assert (c = "."%char ∨ c ∈ name ++ ext) as [->|Hin].
      { apply elem_of_app in Hc as [Hc|Hc].
        - right. apply elem_of_app. left. by apply (subseteq_take n name).
        - destruct (decide (ext = [])); [by apply elem_of_nil in Hc|].
          apply elem_of_cons in Hc as [->|Hc]; [by left|].
          right. apply elem_of_app. by right. }
      * apply (bool_decide_unpack _). by vm_compute.
      * by apply Hclean, Hsub.
  - by rewrite safe_filename_cleaned, decide_False.
Qed.

(** X22. The limit of 200 characters holds unless the extension alone
    reaches it: a result longer than 200 characters ends with a dot and an
    extension of 200 characters or more, with only the part before the dot
    shortened. *)
Theorem safe_filename_length (filename : list ascii) :
  200 < length (Utils.safe_filename filename) →
  ∃ name ext,
    Utils.safe_filename filename = name ++ "."%char :: ext
    ∧ ("."%char ∉ ext)
    ∧ 200 ≤ length ext.
Proof.
  destruct (decide (200 < length (cleaned filename))) as [Hlong|Hshort].
  - destruct (safe_filename_long filename Hlong)
      as (name & ext & n & -> & Hdot & Hnil & Hext & _).
    intros Hlen. destruct (decide (ext = [])) as [->|Hne].
    + destruct (Hnil eq_refl) as [-> _]. rewrite app_nil_r, length_take in Hlen. lia.
    + exists (take n name), ext. split_and!; [done..|].
      destruct (decide (length ext < 200)) as [Hshort|]; [|lia].
      rewrite (Hext Hshort), length_app, length_take in Hlen. simpl in Hlen. lia.
  - rewrite safe_filename_cleaned, decide_False by done. lia.
Qed.

(** X23. A name that is already safe is returned as it is: not empty, at
    most 200 characters, none of them problematic, and neither a space nor
    a dot at either end. *)
Theorem safe_filename_fixed_point (filename : list ascii) :
  filename ≠ [] → length filename ≤ 200 →
  Forall (fun c => c ∉ Utils.problematic) filename →
  (∀ c, head filename = Some c → c ∉ [" "; "."]%char) →
  (∀ c, last filename = Some c → c ∉ [" "; "."]%char) →
  Utils.safe_filename filename = filename.
Proof.
  intros Hne Hlen Hclean Hhead Hlast.
  assert (cleaned filename = filename) as Hcleaned.
  { unfold cleaned. rewrite replace_problematic_id, strip_id by done.
    cbv zeta. by rewrite decide_False. }
  rewrite safe_filename_cleaned, Hcleaned. by rewrite decide_False by lia.
Qed.
End safe_names.

Lemma safe_filename_length_witness :
  let filename :=
    replicate 300 "a"%char ++ "."%char :: replicate 250 "b"%char ++ ["."%char] in
  length (Utils.safe_filename filename) = 500
  ∧ ∃ name ext,
      Utils.safe_filename filename = name ++ "."%char :: ext
      ∧ ("."%char ∉ ext)
      ∧ 200 ≤ length ext.
Proof.
  split; [by vm_compute|].
  apply safe_filename_length.
  apply (bool_decide_unpack _). by vm_compute.
Defined.

Lemma safe_filename_fixed_point_witness :
  Utils.safe_filename (list_ascii_of_string "report v2.txt")
  = list_ascii_of_string "report v2.txt".
Proof.
  apply safe_filename_fixed_point.
  - done.
  - simpl. lia.
  - apply (bool_decide_unpack _). by vm_compute.
  - intros c [= <-]. apply (bool_decide_unpack _). by vm_compute.
  - intros c [= <-]. apply (bool_decide_unpack _). by vm_compute.
Defined.
